(** * Pressure-volume loop simulator: hemodynamic state engine

    A shallow embedding of [src/src/PVLoop.jsx].  JavaScript numbers are
    modelled as real numbers (exact arithmetic, no rounding): [Math.min],
    [Math.max], [Math.abs], [Math.exp], [Math.log] and [Math.sin] become
    [Rmin], [Rmax], [Rabs], [exp], [ln] and [sin].  Results that rest on
    the value of a quotient or of a logarithm carry the side conditions
    under which the real-number operation is the mathematical one
    (non-zero divisor, positive argument of [ln]). *)

From Stdlib Require Import Reals Lra Lia String List Bool.
Import ListNotations.
Open Scope R_scope.

(** ** Constants (PVLoop.jsx, line 23) *)

Definition V0 : R := 10.
Definition A_ED : R := 0.5.
Definition REF_ALPHA : R := 0.02.

(** ** Hemodynamic state: the object literal
    [{ EDV, ESV, ESP, SV, EF, LVEDP, esvP0 }] *)

Record State : Type := mkState {
  EDV : R;
  ESV : R;
  ESP : R;
  SV : R;
  EF : R;
  LVEDP : R;
  esvP0 : R
}.

(** ** Boundary curves (lines 61-62) *)

Definition edpvr (V alpha : R) : R := A_ED * (exp (alpha * V) - 1).
Definition espvr (V Ees : R) : R := Ees * (V - V0).

(** ** Compliance-driven EDV (lines 28-34) *)

Definition getEffectiveEDV (sliderEDV alpha : R) : R :=
  if Rlt_dec (Rabs (alpha - REF_ALPHA)) 0.001 then sliderEDV
  else
    let refLVEDP := A_ED * (exp (REF_ALPHA * sliderEDV) - 1) in
    if Rle_dec alpha 0.001 then Rmin (sliderEDV * 1.3) 200
    else
      let edv := ln (refLVEDP / A_ED + 1) / alpha in
      Rmax 50 (Rmin edv 200).

(** ** Direct-mode solver (lines 36-44) *)

Definition computeState (Ees EDV Ea alpha : R) : State :=
  let ESV := (Ea * EDV + Ees * V0) / (Ees + Ea) in
  let ESP := Ees * (ESV - V0) in
  let SV := EDV - ESV in
  let EF := (SV / EDV) * 100 in
  let LVEDP := A_ED * (exp (alpha * EDV) - 1) in
  let esvP0 := A_ED * (exp (alpha * ESV) - 1) in
  mkState EDV ESV ESP SV EF LVEDP esvP0.

(** ** Pinned-mode solver (lines 48-59) *)

Definition computePinned (Ees sliderEDV alpha refESP refLVEDP : R) : State :=
  let EDV := Rmax 50 (Rmin (ln (refLVEDP / A_ED + 1) / alpha) sliderEDV) in
  let ESV := Rmin (refESP / Ees + V0) (EDV - 1) in
  let ESP := refESP in
  let SV := EDV - ESV in
  let EF := (SV / EDV) * 100 in
  let LVEDP := A_ED * (exp (alpha * EDV) - 1) in
  let esvP0 := A_ED * (exp (alpha * ESV) - 1) in
  mkState EDV ESV ESP SV EF LVEDP esvP0.

(** ** Scenario library (lines 65-166): the numeric preset bundles.
    The teaching text and colours are presentation data; every scenario
    carries four teaching steps. *)

Module Scenario.
Record t : Type := mk {
  label : string;
  Ees : R;
  EDV : R;
  Ea : R;
  alpha : R;
  nSteps : nat
}.
End Scenario.

Inductive ScKey : Type :=
  | normal | hfref | hfpef | as_ | ar | ms | mr | hemorrhage | fluid | inotrope.

Definition SC (k : ScKey) : Scenario.t :=
  match k with
  | normal     => Scenario.mk "Normal"          2.5 120 2.0 0.02  4
  | hfref      => Scenario.mk "HFrEF"           1.0 180 2.2 0.02  4
  | hfpef      => Scenario.mk "HFpEF"           3.0 105 2.2 0.035 4
  | as_        => Scenario.mk "Aortic Stenosis" 3.0 130 3.5 0.02  4
  | ar         => Scenario.mk "Aortic Regurg"   2.5 180 1.5 0.018 4
  | ms         => Scenario.mk "Mitral Stenosis" 2.5 90  2.0 0.02  4
  | mr         => Scenario.mk "Mitral Regurg"   2.5 160 1.2 0.02  4
  | hemorrhage => Scenario.mk "Hemorrhage"      2.8 85  2.5 0.02  4
  | fluid      => Scenario.mk "IV Fluid"        2.5 150 2.0 0.02  4
  | inotrope   => Scenario.mk "Inotrope"        4.0 120 2.0 0.02  4
  end.

(** Baseline state (lines 168-169). *)

Definition NORM : Scenario.t := SC normal.

Definition normSt : State :=
  computeState (Scenario.Ees NORM) (Scenario.EDV NORM)
               (Scenario.Ea NORM) (Scenario.alpha NORM).

(** ** Display coordinates (lines 172-178) *)

Definition W : R := 540.
Definition H : R := 420.

Module PD.
Definition t : R := 22.
Definition r : R := 22.
Definition b : R := 52.
Definition l : R := 56.
End PD.

Definition GW : R := W - PD.l - PD.r.
Definition GH : R := H - PD.t - PD.b.
Definition VMAX : R := 220.
Definition PMAX : R := 240.

Definition vX (v : R) : R := PD.l + (v / VMAX) * GW.
Definition pY (p : R) : R := PD.t + GH - (Rmax 0 (Rmin p PMAX) / PMAX) * GH.

(** ** Loop geometry (lines 181-214)

    [pts] is the array the four [for] loops push onto, in order.  The
    final [map]/[join] of [makeLoop] turns each point into display
    coordinates printed with one decimal; [makeLoop_xy] gives those
    coordinates before printing. *)

Definition point : Type := (R * R)%type.

Definition push (pts : list point) (x : point) : list point := pts ++ [x].

(** [for (let i = 0; i <= n; i++) body] threading the array. *)
Definition for_upto (n : nat) (body : nat -> list point -> list point)
    (pts : list point) : list point :=
  fold_left (fun acc i => body i acc) (seq 0 (S n)) pts.

(** Phase a, loop body: diastolic filling along the EDPVR. *)
Definition filling_sample (st : State) (alpha : R) (i : nat) : point :=
  let v := ESV st + (EDV st - ESV st) * (INR i / 20) in
  let p := edpvr v alpha in
  (v, Rmin p 60).

(** Phase b, loop body: isovolumetric contraction. *)
Definition contraction_sample (st : State) (i : nat) : point :=
  let f := INR i / 12 in
  let p := Rmin (LVEDP st) 60 + (ESP st - Rmin (LVEDP st) 60) * f in
  (EDV st, p).

(** Phase c, loop body: ejection. *)
Definition ejection_sample (st : State) (Ees : R) (i : nat) : point :=
  let f := INR i / 20 in
  let v := EDV st - (EDV st - ESV st) * f in
  let straightP := ESP st in
  let peakBow := 8 in
  let bow := peakBow * sin (f * PI) in
  let espvrAtV := espvr v Ees in
  let p := Rmin (straightP + bow) (espvrAtV + 5) in
  (v, Rmax p (ESP st - 15)).

(** Phase d, loop body: isovolumetric relaxation. *)
Definition relaxation_sample (st : State) (i : nat) : point :=
  let f := INR i / 12 in
  let p := ESP st - (ESP st - Rmin (esvP0 st) 30) * f in
  (ESV st, p).

Definition makeLoop_pts (st : State) (Ees alpha : R) : list point :=
  let pts := [] in
  let pts := for_upto 20 (fun i pts => push pts (filling_sample st alpha i)) pts in
  let pts := for_upto 12 (fun i pts => push pts (contraction_sample st i)) pts in
  let pts := for_upto 20 (fun i pts => push pts (ejection_sample st Ees i)) pts in
  let pts := for_upto 12 (fun i pts => push pts (relaxation_sample st i)) pts in
  pts.

Definition makeLoop_xy (st : State) (Ees alpha : R) : list point :=
  map (fun vp => (vX (fst vp), pY (snd vp))) (makeLoop_pts st Ees alpha).

(** The four phases as index ranges of [pts]. *)
Definition phase_a (st : State) (alpha : R) : list point :=
  map (filling_sample st alpha) (seq 0 21).
Definition phase_b (st : State) : list point :=
  map (contraction_sample st) (seq 0 13).
Definition phase_c (st : State) (Ees : R) : list point :=
  map (ejection_sample st Ees) (seq 0 21).
Definition phase_d (st : State) : list point :=
  map (relaxation_sample st) (seq 0 13).

(** ** Delta indicator [D] (lines 227-231): no arrow within 0.5 of the
    reference, otherwise an up or a down arrow. *)

Inductive Arrow : Type := ArrowUp | ArrowDown.

Definition D (val ref : R) : option Arrow :=
  let d := val - ref in
  if Rlt_dec (Rabs d) 0.5 then None
  else Some (if Rgt_dec d 0 then ArrowUp else ArrowDown).

(** ** Component state (lines 245-248) and its handlers *)

Module Sl.
Record t : Type := mk {
  Ees : R;
  EDV : R;
  Ea : R;
  alpha : R;
  _eaMoved : bool
}.
End Sl.

Inductive Mode : Type := scenario | manual.

Inductive SliderKey : Type := kEes | kEDV | kEa | kalpha.

Definition is_Ea (k : SliderKey) : bool :=
  match k with kEa => true | _ => false end.

Record UI : Type := mkUI {
  scKey : ScKey;
  step : nat;
  sl : Sl.t;
  mode : Mode
}.

Definition initialUI : UI :=
  mkUI normal 0 (Sl.mk 2.5 120 2.0 0.02 false) scenario.

(** The computed property [[k]: v], written last in the object literal. *)
Definition set_key (k : SliderKey) (v : R) (s : Sl.t) : Sl.t :=
  match k with
  | kEes   => Sl.mk v (Sl.EDV s) (Sl.Ea s) (Sl.alpha s) (Sl._eaMoved s)
  | kEDV   => Sl.mk (Sl.Ees s) v (Sl.Ea s) (Sl.alpha s) (Sl._eaMoved s)
  | kEa    => Sl.mk (Sl.Ees s) (Sl.EDV s) v (Sl.alpha s) (Sl._eaMoved s)
  | kalpha => Sl.mk (Sl.Ees s) (Sl.EDV s) (Sl.Ea s) v (Sl._eaMoved s)
  end.

(** [pickSc] (line 273). *)
Definition pickSc (ui : UI) (k : ScKey) : UI :=
  mkUI k 0%nat (sl ui) scenario.

(** [slide] (lines 275-283). *)
Definition slide (ui : UI) (k : SliderKey) (v : R) : UI :=
  let sl' :=
    match mode ui with
    | scenario =>
        let snap := SC (scKey ui) in
        set_key k v
          (Sl.mk (Scenario.Ees snap) (Scenario.EDV snap) (Scenario.Ea snap)
                 (Scenario.alpha snap) (is_Ea k))
    | manual =>
        let prev := sl ui in
        set_key k v
          (Sl.mk (Sl.Ees prev) (Sl.EDV prev) (Sl.Ea prev) (Sl.alpha prev)
                 (if is_Ea k then true else Sl._eaMoved prev))
    end in
  mkUI (scKey ui) (step ui) sl' manual.

(** Teaching-step buttons (lines 438, 445, 455). *)
Definition stepPrev (ui : UI) : UI :=
  mkUI (scKey ui) (Nat.max 0 (step ui - 1)) (sl ui) (mode ui).
Definition stepNext (ui : UI) : UI :=
  mkUI (scKey ui)
       (Nat.min (Scenario.nSteps (SC (scKey ui)) - 1) (step ui + 1))
       (sl ui) (mode ui).
Definition stepTo (ui : UI) (i : nat) : UI :=
  mkUI (scKey ui) i (sl ui) (mode ui).

Inductive Event : Type :=
  | PickSc (k : ScKey)
  | Slide (k : SliderKey) (v : R)
  | StepPrev
  | StepNext
  | StepTo (i : nat).

Definition handle (ui : UI) (e : Event) : UI :=
  match e with
  | PickSc k => pickSc ui k
  | Slide k v => slide ui k v
  | StepPrev => stepPrev ui
  | StepNext => stepNext ui
  | StepTo i => stepTo ui i
  end.

Definition run (ui : UI) (evs : list Event) : UI := fold_left handle evs ui.

Definition is_PickSc (e : Event) : bool :=
  match e with PickSc _ => true | _ => false end.

(** Mode dispatch of the [pv] memo (lines 253-257). *)
Definition pv (ui : UI) : State :=
  let sc := SC (scKey ui) in
  match mode ui with
  | scenario =>
      computeState (Scenario.Ees sc) (Scenario.EDV sc)
                   (Scenario.Ea sc) (Scenario.alpha sc)
  | manual =>
      if Sl._eaMoved (sl ui)
      then computeState (Sl.Ees (sl ui)) (Sl.EDV (sl ui))
                        (Sl.Ea (sl ui)) (Sl.alpha (sl ui))
      else computePinned (Sl.Ees (sl ui)) (Sl.EDV (sl ui)) (Sl.alpha (sl ui))
                         (ESP normSt) (LVEDP normSt)
  end.

(** Which solver the dispatch above selects. *)
Inductive Solver : Type := Direct | Pinned.

Definition solver_of (ui : UI) : Solver :=
  match mode ui with
  | scenario => Direct
  | manual => if Sl._eaMoved (sl ui) then Direct else Pinned
  end.

(** The two states of the mode machine, read off the component state:
    manual mode with, or without, a touched Ea control. *)
Definition Decoupled (ui : UI) : Prop :=
  mode ui = manual /\ Sl._eaMoved (sl ui) = true.

Definition Coupled (ui : UI) : Prop :=
  mode ui = manual /\ Sl._eaMoved (sl ui) = false.

Definition is_nonEa_slide (e : Event) : bool :=
  match e with Slide k _ => negb (is_Ea k) | _ => false end.

(** Curve parameters handed to the loop generator (lines 258-260). *)
Definition pm_Ees (ui : UI) : R :=
  match mode ui with
  | scenario => Scenario.Ees (SC (scKey ui))
  | manual => Sl.Ees (sl ui)
  end.

Definition pm_alpha (ui : UI) : R :=
  match mode ui with
  | scenario => Scenario.alpha (SC (scKey ui))
  | manual => Sl.alpha (sl ui)
  end.

Definition loop (ui : UI) : list point :=
  makeLoop_pts (pv ui) (pm_Ees ui) (pm_alpha ui).

(** ** Readout grid (lines 287, 389-396) *)

Definition dispLVEDP (pv : State) : R := Rmin (LVEDP pv) 50.

Module Readout.
Record t : Type := mk {
  l : string;
  v : R;
  u : string;
  r : R
}.
End Readout.

Definition readouts (pv : State) : list Readout.t :=
  [ Readout.mk "EDV"         (EDV pv)       "mL"   (EDV normSt);
    Readout.mk "LVEDP"       (dispLVEDP pv) "mmHg" (LVEDP normSt);
    Readout.mk "ESV"         (ESV pv)       "mL"   (ESV normSt);
    Readout.mk "Afterload"   (ESP pv)       "mmHg" (ESP normSt);
    Readout.mk "Stroke Vol"  (SV pv)        "mL"   (SV normSt);
    Readout.mk "Ejection Fr" (EF pv)        "%"    (EF normSt) ].

(** What one grid cell shows: the number (before it is printed) and the
    arrow of [<D val={v} ref={r} />]. *)
Definition cell (row : Readout.t) : R * option Arrow :=
  (Readout.v row, D (Readout.v row) (Readout.r row)).

(** ** Boundary-curve sampling [makeCurve] (lines 216-225)

    The source pushes each sample already printed in display coordinates;
    [makeCurve_pts] keeps the (volume, pressure) pair that is printed and
    [makeCurve_xy] its display coordinates.  The [for] loop runs on fuel;
    [makeCurve_pts] gives it more than the 106 rounds the bound
    [v <= 210] allows. *)

Inductive CurveType : Type := curve_espvr | curve_edpvr.

Definition curve_start (type : CurveType) : R :=
  match type with curve_espvr => V0 | curve_edpvr => 0 end.

Definition curve_p (type : CurveType) (v param : R) : R :=
  match type with
  | curve_espvr => espvr v param
  | curve_edpvr => edpvr v param
  end.

Definition is_edpvr (type : CurveType) : bool :=
  match type with curve_edpvr => true | curve_espvr => false end.

Fixpoint makeCurve_loop (fuel : nat) (type : CurveType) (param v : R)
    (pts : list point) : list point :=
  match fuel with
  | O => pts
  | S fuel' =>
      if Rle_dec v 210 then
        let p := curve_p type v param in
        if Rgt_dec p (PMAX + 10) then pts
        else if is_edpvr type && (if Rgt_dec p 65 then true else false) then pts
        else makeCurve_loop fuel' type param (v + 2) (push pts (v, p))
      else pts
  end.

Definition makeCurve_pts (type : CurveType) (param : R) : list point :=
  makeCurve_loop 128 type param (curve_start type) [].

Definition toXY (vp : point) : point := (vX (fst vp), pY (snd vp)).

Definition makeCurve_xy (type : CurveType) (param : R) : list point :=
  map toXY (makeCurve_pts type param).

(** ** Highlight ring [getHL] (lines 233-241, 271) and the four corner
    dots of the loop (lines 357-360) *)

Inductive HLKey : Type := topleft | bottomright | topright.

(** The [highlight] field of each scenario. *)
Definition highlight (k : ScKey) : option HLKey :=
  match k with
  | normal => None
  | hfref => Some topleft
  | hfpef => Some bottomright
  | as_ => Some topright
  | ar => Some bottomright
  | ms => Some bottomright
  | mr => Some topleft
  | hemorrhage => Some bottomright
  | fluid => Some bottomright
  | inotrope => Some topleft
  end.

Module HL.
Record t : Type := mk {
  cx : R;
  cy : R;
  label : string
}.
End HL.

Definition getHL (key : option HLKey) (pv : State) : option HL.t :=
  match key with
  | None => None
  | Some topleft =>
      Some (HL.mk (vX (ESV pv)) (pY (ESP pv)) "End-systolic point")
  | Some bottomright =>
      Some (HL.mk (vX (EDV pv)) (pY (Rmin (LVEDP pv) 50)) "Preload (EDV)")
  | Some topright =>
      Some (HL.mk (vX (EDV pv)) (pY (ESP pv)) "Peak pressure")
  end.

Definition hl (ui : UI) : option HL.t :=
  match mode ui with
  | scenario => getHL (highlight (scKey ui)) (pv ui)
  | manual => None
  end.

Definition corner_dots (pv : State) : list point :=
  [ (vX (EDV pv), pY (Rmin (LVEDP pv) 50));
    (vX (ESV pv), pY (ESP pv));
    (vX (EDV pv), pY (ESP pv));
    (vX (ESV pv), pY (Rmin (esvP0 pv) 30)) ].

(** ** Slider positions (line 415): what each range input shows. *)

Definition sc_get (key : SliderKey) (s : Scenario.t) : R :=
  match key with
  | kEes => Scenario.Ees s
  | kEDV => Scenario.EDV s
  | kEa => Scenario.Ea s
  | kalpha => Scenario.alpha s
  end.

Definition sl_get (key : SliderKey) (s : Sl.t) : R :=
  match key with
  | kEes => Sl.Ees s
  | kEDV => Sl.EDV s
  | kEa => Sl.Ea s
  | kalpha => Sl.alpha s
  end.

Definition slider_val (ui : UI) (key : SliderKey) : R :=
  match mode ui with
  | scenario => sc_get key (SC (scKey ui))
  | manual => sl_get key (sl ui)
  end.

(** ** Events the rendered page can deliver: a progress bar exists for
    each teaching step of the current scenario (line 454). *)

Definition event_ok (ui : UI) (e : Event) : bool :=
  match e with
  | StepTo i => Nat.ltb i (Scenario.nSteps (SC (scKey ui)))
  | _ => true
  end.

Fixpoint trace_ok (ui : UI) (evs : list Event) : bool :=
  match evs with
  | [] => true
  | e :: evs' => event_ok ui e && trace_ok (handle ui e) evs'
  end.

(** ** ESPVR curve label (line 346): where the label is anchored, if it
    is drawn. *)

Definition espvr_label (Ees : R) : option point :=
  let lv := V0 + Rmin (90 / Ees) 45 in
  let lp := espvr lv Ees in
  if Rgt_dec lp 10 then
    if Rlt_dec lp (PMAX - 20) then Some (vX lv + 3, pY lp - 5) else None
  else None.

(** The pressure above which [makeCurve] stops sampling, and the test a
    volume has to pass to be sampled. *)
Definition curve_cap (type : CurveType) : R :=
  match type with curve_espvr => PMAX + 10 | curve_edpvr => 65 end.

Definition curve_keep (type : CurveType) (param v : R) : Prop :=
  v <= 210 /\ curve_p type v param <= curve_cap type.

Definition curve_grid (type : CurveType) (j : nat) : R :=
  curve_start type + 2 * INR j.

(** Two component states that differ at most in slider values the
    scenario mode never reads. *)
Definition same_view (u1 u2 : UI) : Prop :=
  scKey u1 = scKey u2 /\ step u1 = step u2 /\ mode u1 = mode u2
  /\ (mode u1 = manual -> sl u1 = sl u2).

Definition step_ok (ui : UI) : Prop :=
  (step ui < Scenario.nSteps (SC (scKey ui)))%nat.

(** ** JavaScript numbers with their special values

    The real-number model above is exact on finite values but has no NaN
    or infinity: it gives [x / 0 = 0] and [ln x = 0] for [x <= 0].
    [JSNum] adds the special values of a JavaScript number: NaN, the two
    infinities and the negative zero ([Fin 0] is the positive zero), with
    the IEEE 754 rules the operators, [Math.exp], [Math.log], [Math.min]
    and [Math.max] follow on them; finite results stay exact.
    [computePinned_js] is [computePinned] (lines 48-59) over these
    numbers. *)



















(** ** Printing with [toFixed(1)] (lines 213, 222)

    [x.toFixed(1)] prints the multiple of 0.1 nearest to [x], the larger
    one on a tie, after taking the sign off a negative [x].  [toFixed1]
    is the number that string denotes; [makeLoop] is the list of vertices
    that the string returned by the source's [makeLoop] spells out, in
    order. *)

Definition toFixed1 (x : R) : R :=
  if Rlt_dec x 0
  then - (IZR (Zfloor (10 * - x + / 2)) / 10)
  else IZR (Zfloor (10 * x + / 2)) / 10.

Definition print_point (vp : point) : point :=
  (toFixed1 (vX (fst vp)), toFixed1 (pY (snd vp))).

Definition makeLoop (st : State) (Ees alpha : R) : list point :=
  map print_point (makeLoop_pts st Ees alpha).

Definition makeCurve (type : CurveType) (param : R) : list point :=
  map print_point (makeCurve_pts type param).

(** * Verification *)

Ltac rminmax :=
  unfold Rmin, Rmax; repeat (destruct (Rle_dec _ _)); try lra.

(** ** Direct mode: closed forms *)

Section DirectMode.

Variables Ees EDV0 Ea alpha : R.
Hypothesis Hsum : Ees + Ea <> 0.

(** The end-systolic point sits [Ea / (Ees + Ea)] of the way from [V0]
    to the end-diastolic volume. *)
Lemma computeState_ESV_offset :
  ESV (computeState Ees EDV0 Ea alpha) = V0 + Ea * (EDV0 - V0) / (Ees + Ea).
Proof. cbn -[exp]. field. exact Hsum. Qed.

Lemma computeState_SV_closed :
  SV (computeState Ees EDV0 Ea alpha) = Ees * (EDV0 - V0) / (Ees + Ea).
Proof. cbn -[exp]. field. exact Hsum. Qed.

(** The end-systolic pressure also lies on the arterial-elastance line. *)
Lemma computeState_ESP_elastance :
  ESP (computeState Ees EDV0 Ea alpha)
  = Ea * (EDV0 - ESV (computeState Ees EDV0 Ea alpha)).
Proof. cbn -[exp]. field. exact Hsum. Qed.

End DirectMode.

Lemma computeState_fields (Ees EDV0 Ea alpha : R) :
  let st := computeState Ees EDV0 Ea alpha in
  EDV st = EDV0 /\ ESP st = espvr (ESV st) Ees /\ SV st = EDV st - ESV st
  /\ EF st = SV st / EDV st * 100
  /\ LVEDP st = edpvr (EDV st) alpha /\ esvP0 st = edpvr (ESV st) alpha.
Proof. cbn -[exp]. unfold edpvr, espvr. repeat split. Qed.

Lemma computePinned_fields (Ees sliderEDV alpha refESP refLVEDP : R) :
  let st := computePinned Ees sliderEDV alpha refESP refLVEDP in
  ESP st = refESP /\ SV st = EDV st - ESV st
  /\ EF st = SV st / EDV st * 100
  /\ LVEDP st = edpvr (EDV st) alpha /\ esvP0 st = edpvr (ESV st) alpha.
Proof. cbn -[exp ln]. unfold edpvr. repeat split. Qed.

Lemma computeState_baseline_exact :
  let st := computeState 2.5 120 2.0 0.02 in
  ESV st = 530 / 9 /\ ESP st = 1100 / 9 /\ SV st = 550 / 9 /\ EF st = 1375 / 27.
Proof. cbn -[exp]. unfold V0. repeat split; lra. Qed.

(** C1, as amended: for the baseline parameters Ees = 2.5, EDV = 120,
    Ea = 2.0, alpha = 0.02 the direct-mode solver returns ESV = 58.89,
    ESP = 122.22, SV = 61.11 and EF = 50.93, each to within 1e-2 (the
    exact values are 530/9, 1100/9, 550/9 and 1375/27). *)
Theorem computeState_baseline :
  let st := computeState 2.5 120 2.0 0.02 in
  Rabs (ESV st - 58.89) < 0.01 /\ Rabs (ESP st - 122.22) < 0.01
  /\ Rabs (SV st - 61.11) < 0.01 /\ Rabs (EF st - 50.93) < 0.01.
Proof.
  cbv zeta.
  destruct computeState_baseline_exact as (-> & -> & -> & ->).
  repeat split; apply Rabs_def1; lra.
Qed.

(** C1, counterexample: the baseline EF is 1375/27 = 50.9259..., more
    than 1e-2 away from the quoted 50.9. *)
Lemma computeState_baseline_EF_off :
  ~ Rabs (EF (computeState 2.5 120 2.0 0.02) - 50.9) < 0.01.
Proof.
  destruct computeState_baseline_exact as (_ & _ & _ & ->).
  rewrite Rabs_right by lra. lra.
Qed.

(** The other pair of figures quoted for the baseline, ESV = 62.22 and
    ESP = 130.56, is not what the solver returns. *)
Lemma computeState_baseline_not_62 :
  let st := computeState 2.5 120 2.0 0.02 in
  3 < Rabs (ESV st - 62.22) /\ 8 < Rabs (ESP st - 130.56).
Proof.
  cbv zeta.
  destruct computeState_baseline_exact as (-> & -> & _).
  rewrite !Rabs_left by lra. lra.
Qed.

(** C2: for Ees > 0, Ea > 0 and EDV > V0 the direct-mode solver returns
    ESV strictly between V0 and EDV, and SV = EDV - ESV exactly. *)
Theorem computeState_ESV_between (Ees EDV0 Ea alpha : R) :
  0 < Ees -> 0 < Ea -> V0 < EDV0 ->
  let st := computeState Ees EDV0 Ea alpha in
  V0 < ESV st < EDV0 /\ EDV st = EDV0 /\ SV st = EDV st - ESV st.
Proof.
  intros HEes HEa HEDV st.
  assert (Hsum : Ees + Ea <> 0) by lra.
  assert (Hgap : 0 < Ea * (EDV0 - V0) / (Ees + Ea)).
  { apply Rdiv_lt_0_compat; [apply Rmult_lt_0_compat|]; lra. }
  assert (Hsv : 0 < Ees * (EDV0 - V0) / (Ees + Ea)).
  { apply Rdiv_lt_0_compat; [apply Rmult_lt_0_compat|]; lra. }
  pose proof (computeState_ESV_offset Ees EDV0 Ea alpha Hsum) as HESV.
  pose proof (computeState_SV_closed Ees EDV0 Ea alpha Hsum) as HSV.
  destruct (computeState_fields Ees EDV0 Ea alpha) as (HE & _ & Hdef & _).
  fold st in HESV, HSV, HE, Hdef.
  repeat split; try assumption; lra.
Qed.

Lemma computeState_ESV_between_witness :
  let st := computeState 2.5 120 2.0 0.02 in
  V0 < ESV st < 120 /\ EDV st = 120 /\ SV st = EDV st - ESV st.
Proof.
  apply (computeState_ESV_between 2.5 120 2.0 0.02); unfold V0; lra.
Defined.

(** The pinned EDV never drops below the floor of 50 nor exceeds
    [max 50 sliderEDV]. *)
Lemma computePinned_EDV_range (Ees sliderEDV alpha refESP refLVEDP : R) :
  let st := computePinned Ees sliderEDV alpha refESP refLVEDP in
  50 <= EDV st <= Rmax 50 sliderEDV.
Proof. cbn -[exp ln]. rminmax. Qed.

(** C6: [getEffectiveEDV] returns the slider value unchanged when alpha
    is within 0.001 of [REF_ALPHA], returns [min (sliderEDV * 1.3) 200]
    when alpha <= 0.001, and divides by alpha only in the remaining case,
    where alpha > 0.001. *)
Theorem getEffectiveEDV_guards (sliderEDV alpha : R) :
  (Rabs (alpha - REF_ALPHA) < 0.001 ->
     getEffectiveEDV sliderEDV alpha = sliderEDV)
  /\ (alpha <= 0.001 ->
     getEffectiveEDV sliderEDV alpha = Rmin (sliderEDV * 1.3) 200)
  /\ (~ Rabs (alpha - REF_ALPHA) < 0.001 -> ~ alpha <= 0.001 ->
     0.001 < alpha /\
     getEffectiveEDV sliderEDV alpha
     = Rmax 50 (Rmin (ln (A_ED * (exp (REF_ALPHA * sliderEDV) - 1) / A_ED + 1)
                      / alpha) 200)).
Proof.
  unfold getEffectiveEDV. repeat split.
  - intros Hnear. destruct (Rlt_dec _ _); [reflexivity | contradiction].
  - intros Hsmall.
    destruct (Rlt_dec _ _) as [Hnear | _].
    + exfalso. unfold REF_ALPHA in Hnear.
      apply Rabs_def2 in Hnear. lra.
    + destruct (Rle_dec _ _); [reflexivity | contradiction].
  - lra.
  - destruct (Rlt_dec _ _); [contradiction |].
    destruct (Rle_dec _ _); [contradiction | reflexivity].
Qed.

Lemma getEffectiveEDV_guards_witness :
  getEffectiveEDV 120 0.0205 = 120
  /\ getEffectiveEDV 120 0.001 = Rmin (120 * 1.3) 200
  /\ 0.001 < 0.04.
Proof.
  split; [| split].
  - apply (getEffectiveEDV_guards 120 0.0205).
    unfold REF_ALPHA. apply Rabs_def1; lra.
  - apply (getEffectiveEDV_guards 120 0.001). lra.
  - apply (getEffectiveEDV_guards 120 0.04).
    + unfold REF_ALPHA. intros Hc. apply Rabs_def2 in Hc. lra.
    + lra.
Defined.

(** ** Monotonicity in contractility *)

(** C8: for valid parameters (Ees, Ea > 0 and an EDV above V0, as the
    data model requires), increasing Ees with EDV, Ea and alpha fixed
    strictly decreases the ESV returned by the direct-mode solver and
    strictly increases its EF. *)
Theorem computeState_Ees_monotone (EDV0 Ea alpha Ees1 Ees2 : R) :
  0 < Ees1 -> Ees1 < Ees2 -> 0 < Ea -> V0 < EDV0 ->
  ESV (computeState Ees2 EDV0 Ea alpha) < ESV (computeState Ees1 EDV0 Ea alpha)
  /\ EF (computeState Ees1 EDV0 Ea alpha) < EF (computeState Ees2 EDV0 Ea alpha).
Proof.
  intros H1 H12 HEa HEDV.
  assert (HESV : ESV (computeState Ees2 EDV0 Ea alpha)
                 < ESV (computeState Ees1 EDV0 Ea alpha)).
  { rewrite !computeState_ESV_offset by lra.
    apply Rplus_lt_compat_l.
    unfold Rdiv. apply Rmult_lt_compat_l.
    - apply Rmult_lt_0_compat; lra.
    - apply Rinv_lt_contravar; [apply Rmult_lt_0_compat|]; lra. }
  split; [exact HESV |].
  destruct (computeState_fields Ees1 EDV0 Ea alpha) as (HE1 & _ & HS1 & HF1 & _).
  destruct (computeState_fields Ees2 EDV0 Ea alpha) as (HE2 & _ & HS2 & HF2 & _).
  cbv zeta in *. rewrite HF1, HF2, HS1, HS2, HE1, HE2.
  assert (HEDVpos : 0 < EDV0) by (unfold V0 in HEDV; lra).
  apply Rmult_lt_compat_r; [lra |].
  unfold Rdiv. apply Rmult_lt_compat_r; [apply Rinv_0_lt_compat; lra | lra].
Qed.

Lemma computeState_Ees_monotone_witness :
  ESV (computeState 4.0 120 2.0 0.02) < ESV (computeState 2.5 120 2.0 0.02)
  /\ EF (computeState 2.5 120 2.0 0.02) < EF (computeState 4.0 120 2.0 0.02).
Proof.
  apply (computeState_Ees_monotone 120 2.0 0.02 2.5 4.0); unfold V0; lra.
Defined.

(** On the boundary of the valid range, EDV = V0 = 10, the returned ESV
    is 10 and the EF is 0 whatever Ees is: raising Ees from 1 to 2
    (Ea = 2) changes neither. *)
Lemma computeState_Ees_flat_at_V0 :
  0 < 1 /\ 1 < 2 /\ 0 < 2
  /\ ~ ESV (computeState 2 10 2 0.02) < ESV (computeState 1 10 2 0.02)
  /\ ~ EF (computeState 1 10 2 0.02) < EF (computeState 2 10 2 0.02).
Proof.
  cbn -[exp]. unfold V0. repeat split; lra.
Qed.

(** ** Pinned mode: the filling-pressure pin *)

Lemma edpvr_inverse (alpha P : R) :
  alpha <> 0 -> 0 < P / A_ED + 1 ->
  edpvr (ln (P / A_ED + 1) / alpha) alpha = P.
Proof.
  intros Ha Hpos. unfold edpvr.
  replace (alpha * (ln (P / A_ED + 1) / alpha)) with (ln (P / A_ED + 1))
    by (field; exact Ha).
  rewrite exp_ln by exact Hpos.
  unfold A_ED. lra.
Qed.

Lemma edpvr_at_0 (alpha : R) : edpvr 0 alpha = 0.
Proof. unfold edpvr. rewrite Rmult_0_r, exp_0. lra. Qed.

Lemma edpvr_increasing (alpha V1 V2 : R) :
  0 < alpha -> V1 < V2 -> edpvr V1 alpha < edpvr V2 alpha.
Proof.
  intros Ha HV. unfold edpvr, A_ED.
  assert (exp (alpha * V1) < exp (alpha * V2)).
  { apply exp_increasing. apply Rmult_lt_compat_l; assumption. }
  lra.
Qed.

(** C9: for alpha > 0 and refLVEDP > 0, whenever the logarithmic cap
    lies between 50 and sliderEDV, the pinned EDV is that cap and the
    LVEDP of the returned state is refLVEDP exactly. *)
Theorem computePinned_LVEDP_pin (Ees sliderEDV alpha refESP refLVEDP : R) :
  0 < alpha -> 0 < refLVEDP ->
  50 <= ln (refLVEDP / A_ED + 1) / alpha <= sliderEDV ->
  let st := computePinned Ees sliderEDV alpha refESP refLVEDP in
  EDV st = ln (refLVEDP / A_ED + 1) / alpha /\ LVEDP st = refLVEDP.
Proof.
  intros Ha HP [Hlo Hhi] st.
  assert (HEDV : EDV st = ln (refLVEDP / A_ED + 1) / alpha).
  { subst st. cbn -[exp ln]. rminmax. }
  split; [exact HEDV |].
  destruct (computePinned_fields Ees sliderEDV alpha refESP refLVEDP)
    as (_ & _ & _ & HL & _).
  fold st in HL. rewrite HL, HEDV.
  apply edpvr_inverse; [lra |].
  assert (0 < refLVEDP / A_ED) by (apply Rdiv_lt_0_compat; unfold A_ED; lra).
  lra.
Qed.

(** The baseline state, and the cap it induces at the reference alpha. *)
Lemma normSt_LVEDP : LVEDP normSt = A_ED * (exp (0.02 * 120) - 1).
Proof. reflexivity. Qed.

Lemma normSt_ESP : ESP normSt = 1100 / 9.
Proof. exact (proj1 (proj2 computeState_baseline_exact)). Qed.

Lemma normSt_LVEDP_pos : 0 < LVEDP normSt.
Proof.
  rewrite normSt_LVEDP. unfold A_ED.
  assert (exp 0 < exp (0.02 * 120)) by (apply exp_increasing; lra).
  rewrite exp_0 in *. lra.
Qed.

Lemma normSt_cap : ln (LVEDP normSt / A_ED + 1) / 0.02 = 120.
Proof.
  rewrite normSt_LVEDP.
  replace (A_ED * (exp (0.02 * 120) - 1) / A_ED + 1) with (exp (0.02 * 120))
    by (unfold A_ED; lra).
  rewrite ln_exp. lra.
Qed.

Lemma computePinned_LVEDP_pin_witness :
  let st := computePinned 2.5 120 0.02 (ESP normSt) (LVEDP normSt) in
  EDV st = ln (LVEDP normSt / A_ED + 1) / 0.02 /\ LVEDP st = LVEDP normSt.
Proof.
  apply (computePinned_LVEDP_pin 2.5 120 0.02 (ESP normSt) (LVEDP normSt)).
  - lra.
  - exact normSt_LVEDP_pos.
  - rewrite normSt_cap. lra.
Defined.

(** ** Loop geometry *)

Lemma fold_push_map (g : nat -> point) (l : list nat) (pts : list point) :
  fold_left (fun acc i => push acc (g i)) l pts = pts ++ map g l.
Proof.
  revert pts. induction l as [| i l IH]; intros pts; simpl.
  - now rewrite app_nil_r.
  - rewrite IH. unfold push. now rewrite <- app_assoc.
Qed.

Lemma for_upto_push (n : nat) (g : nat -> point) (pts : list point) :
  for_upto n (fun i acc => push acc (g i)) pts = pts ++ map g (seq 0 (S n)).
Proof. unfold for_upto. apply fold_push_map. Qed.

(** The array returned by the four loops is the four phases in order. *)
Lemma makeLoop_pts_phases (st : State) (Ees alpha : R) :
  makeLoop_pts st Ees alpha
  = phase_a st alpha ++ phase_b st ++ phase_c st Ees ++ phase_d st.
Proof.
  unfold makeLoop_pts, phase_a, phase_b, phase_c, phase_d.
  rewrite !for_upto_push. cbn [app]. now rewrite <- !app_assoc.
Qed.

Lemma makeLoop_pts_length (st : State) (Ees alpha : R) :
  length (makeLoop_pts st Ees alpha) = 68%nat.
Proof.
  rewrite makeLoop_pts_phases.
  unfold phase_a, phase_b, phase_c, phase_d.
  now rewrite !length_app, !length_map, !length_seq.
Qed.

Lemma INR_frac_range (i n : nat) :
  (0 < n)%nat -> (i <= n)%nat -> 0 <= INR i / INR n <= 1.
Proof.
  intros Hn Hi.
  assert (0 < INR n) by (apply lt_0_INR; exact Hn).
  assert (0 <= INR i) by apply pos_INR.
  assert (INR i <= INR n) by (apply le_INR; exact Hi).
  split.
  - apply Rmult_le_pos; [assumption | left; now apply Rinv_0_lt_compat].
  - apply Rmult_le_reg_r with (INR n); [assumption |].
    unfold Rdiv. rewrite Rmult_assoc, Rinv_l by lra. lra.
Qed.

(** C7: the array is filling, contraction, ejection, relaxation in that
    order; the filling phase starts at volume ESV and ends at volume EDV;
    every contraction sample is at volume EDV and every relaxation sample
    at volume ESV. *)
Theorem makeLoop_phase_volumes (st : State) (Ees alpha : R) :
  makeLoop_pts st Ees alpha
  = phase_a st alpha ++ phase_b st ++ phase_c st Ees ++ phase_d st
  /\ (length (phase_a st alpha) = 21 /\ length (phase_b st) = 13
      /\ length (phase_c st Ees) = 21 /\ length (phase_d st) = 13)%nat
  /\ fst (nth 0 (phase_a st alpha) (0, 0)) = ESV st
  /\ fst (nth 20 (phase_a st alpha) (0, 0)) = EDV st
  /\ Forall (fun vp => fst vp = EDV st) (phase_b st)
  /\ Forall (fun vp => fst vp = ESV st) (phase_d st).
Proof.
  split; [apply makeLoop_pts_phases |].
  split; [now unfold phase_a, phase_b, phase_c, phase_d;
          rewrite !length_map, !length_seq |].
  split; [cbn; lra |].
  split; [cbn; lra |].
  split; apply Forall_forall; intros vp Hin;
    apply in_map_iff in Hin; destruct Hin as (i & <- & _); reflexivity.
Qed.

(** The same facts read off the indices of the returned array. *)
Lemma makeLoop_pts_volumes_by_index (st : State) (Ees alpha : R) :
  let pts := makeLoop_pts st Ees alpha in
  fst (nth 0 pts (0, 0)) = ESV st
  /\ fst (nth 20 pts (0, 0)) = EDV st
  /\ Forall (fun vp => fst vp = EDV st) (firstn 13 (skipn 21 pts))
  /\ Forall (fun vp => fst vp = ESV st) (skipn 55 pts).
Proof.
  cbv zeta. rewrite makeLoop_pts_phases.
  repeat split.
  - cbn; lra.
  - cbn; lra.
  - repeat constructor.
  - repeat constructor.
Qed.


Lemma makeLoop_xy_length (st : State) (Ees alpha : R) :
  length (makeLoop_xy st Ees alpha) = 68%nat.
Proof. unfold makeLoop_xy. rewrite length_map. apply makeLoop_pts_length. Qed.

(** Each ejection sample is the bowed line clamped from above, then
    floored. *)
Lemma ejection_sample_bounds (st : State) (Ees : R) (i : nat) :
  let vp := ejection_sample st Ees i in
  ESP st - 15 <= snd vp <= Rmax (espvr (fst vp) Ees + 5) (ESP st - 15)
  /\ (snd vp <= espvr (fst vp) Ees + 5
      <-> ESP st - 15 <= espvr (fst vp) Ees + 5).
Proof.
  unfold ejection_sample. cbn [fst snd].
  set (v := EDV st - _). set (top := ESP st + _).
  repeat split; rminmax.
Qed.

(** The ejection phase is the 21 samples at indices 34..54 of the
    array; the floor is applied after the ceiling, so a sample is at
    most espvr(v, Ees) + 5 exactly when the floor ESP - 15 does not lie
    above that ceiling. *)
Lemma makeLoop_ejection_samples (st : State) (Ees alpha : R) :
  firstn 21 (skipn 34 (makeLoop_pts st Ees alpha)) = phase_c st Ees
  /\ length (phase_c st Ees) = 21%nat
  /\ Forall (fun vp =>
       ESP st - 15 <= snd vp <= Rmax (espvr (fst vp) Ees + 5) (ESP st - 15)
       /\ (snd vp <= espvr (fst vp) Ees + 5
           <-> ESP st - 15 <= espvr (fst vp) Ees + 5))
     (phase_c st Ees).
Proof.
  split; [rewrite makeLoop_pts_phases; reflexivity |].
  split; [now unfold phase_c; rewrite length_map, length_seq |].
  apply Forall_forall. intros vp Hin.
  apply in_map_iff in Hin. destruct Hin as (i & <- & _).
  apply ejection_sample_bounds.
Qed.

(** The bow never lifts an ejection sample more than 8 above ESP. *)
Lemma ejection_sample_bow (st : State) (Ees : R) (i : nat) :
  snd (ejection_sample st Ees i) <= ESP st + 8.
Proof.
  unfold ejection_sample. cbn [snd].
  pose proof (SIN_bound (INR i / 20 * PI)) as [_ Hs].
  set (s := sin _) in *. set (c := espvr _ _ + 5).
  rminmax.
Qed.

(** For a direct-mode state drawn with its own Ees, the ceiling holds
    at every ejection sample. *)
Lemma direct_ejection_under_ESPVR (Ees EDV0 Ea alpha : R) :
  0 < Ees -> 0 < Ea -> V0 <= EDV0 ->
  let st := computeState Ees EDV0 Ea alpha in
  Forall (fun vp => ESP st - 15 <= snd vp <= espvr (fst vp) Ees + 5)
         (phase_c st Ees).
Proof.
  intros HEes HEa HEDV st.
  apply Forall_forall. intros vp Hin.
  apply in_map_iff in Hin. destruct Hin as (i & <- & Hi).
  apply in_seq in Hi.
  destruct (ejection_sample_bounds st Ees i) as ([Hlo _] & Hiff).
  cbv zeta in Hlo, Hiff.
  split; [exact Hlo |]. apply Hiff.
  destruct (computeState_fields Ees EDV0 Ea alpha) as (HE & HP & HS & _).
  fold st in HE, HP, HS.
  assert (Hsv : 0 <= SV st).
  { subst st. rewrite computeState_SV_closed by lra.
    apply Rmult_le_pos; [apply Rmult_le_pos; lra |].
    left. apply Rinv_0_lt_compat. lra. }
  assert (Hf : 0 <= INR i / INR 20 <= 1) by (apply INR_frac_range; lia).
  replace (INR 20) with 20 in Hf by (simpl; lra).
  unfold ejection_sample. cbn [fst].
  rewrite HP. unfold espvr.
  assert (ESV st <= EDV st - (EDV st - ESV st) * (INR i / 20)) by nra.
  nra.
Qed.


(** ** Mode selection *)

Lemma slide_mode (ui : UI) (k : SliderKey) (v : R) :
  mode (slide ui k v) = manual.
Proof. reflexivity. Qed.

Lemma set_key_eaMoved (k : SliderKey) (v : R) (s : Sl.t) :
  Sl._eaMoved (set_key k v s) = Sl._eaMoved s.
Proof. destruct k; reflexivity. Qed.

Lemma slide_eaMoved (ui : UI) (k : SliderKey) (v : R) :
  Sl._eaMoved (sl (slide ui k v))
  = match mode ui with
    | scenario => is_Ea k
    | manual => is_Ea k || Sl._eaMoved (sl ui)
    end.
Proof.
  unfold slide. cbn [sl]. destruct (mode ui); rewrite set_key_eaMoved; cbn.
  - reflexivity.
  - now destruct (is_Ea k).
Qed.

Lemma solver_of_pv (ui : UI) :
  pv ui =
  match mode ui, solver_of ui with
  | scenario, _ =>
      let sc := SC (scKey ui) in
      computeState (Scenario.Ees sc) (Scenario.EDV sc)
                   (Scenario.Ea sc) (Scenario.alpha sc)
  | manual, Direct =>
      computeState (Sl.Ees (sl ui)) (Sl.EDV (sl ui))
                   (Sl.Ea (sl ui)) (Sl.alpha (sl ui))
  | manual, Pinned =>
      computePinned (Sl.Ees (sl ui)) (Sl.EDV (sl ui)) (Sl.alpha (sl ui))
                    (ESP normSt) (LVEDP normSt)
  end.
Proof.
  unfold pv, solver_of. destruct (mode ui); [reflexivity |].
  destruct (Sl._eaMoved (sl ui)); reflexivity.
Qed.

Lemma Decoupled_handle (ui : UI) (e : Event) :
  Decoupled ui -> is_PickSc e = false -> Decoupled (handle ui e).
Proof.
  intros [Hm He] Hne. destruct e; try discriminate; cbn [handle].
  - split; [apply slide_mode |].
    rewrite slide_eaMoved, Hm, He. apply orb_true_r.
  - split; assumption.
  - split; assumption.
  - split; assumption.
Qed.

Lemma Decoupled_run (evs : list Event) (ui : UI) :
  Decoupled ui -> forallb (fun e => negb (is_PickSc e)) evs = true ->
  Decoupled (run ui evs).
Proof.
  revert ui. induction evs as [| e evs IH]; intros ui Hd Hall; cbn in *.
  - exact Hd.
  - apply andb_true_iff in Hall. destruct Hall as [He Hall].
    apply IH; [| exact Hall].
    apply Decoupled_handle; [exact Hd |].
    now apply negb_true_iff in He.
Qed.

Lemma Decoupled_direct (ui : UI) :
  Decoupled ui ->
  solver_of ui = Direct
  /\ pv ui = computeState (Sl.Ees (sl ui)) (Sl.EDV (sl ui))
                          (Sl.Ea (sl ui)) (Sl.alpha (sl ui)).
Proof.
  intros [Hm He]. unfold pv, solver_of. rewrite Hm, He. split; reflexivity.
Qed.

Lemma Coupled_pinned (ui : UI) :
  Coupled ui ->
  solver_of ui = Pinned
  /\ pv ui = computePinned (Sl.Ees (sl ui)) (Sl.EDV (sl ui))
                           (Sl.alpha (sl ui)) (ESP normSt) (LVEDP normSt).
Proof.
  intros [Hm He]. unfold pv, solver_of. rewrite Hm, He. split; reflexivity.
Qed.

Lemma Coupled_run (evs : list Event) (ui : UI) :
  Coupled ui -> forallb is_nonEa_slide evs = true -> Coupled (run ui evs).
Proof.
  revert ui. induction evs as [| e evs IH]; intros ui Hc Hall; cbn in *.
  - exact Hc.
  - apply andb_true_iff in Hall. destruct Hall as [He Hall].
    apply IH; [| exact Hall].
    destruct e as [| k v | | |]; try discriminate. cbn in *.
    destruct Hc as [Hm Hf].
    split; [apply slide_mode |].
    rewrite slide_eaMoved, Hm, Hf.
    apply negb_true_iff in He. now rewrite He.
Qed.

Lemma slide_Ea_Decoupled (ui : UI) (v : R) : Decoupled (slide ui kEa v).
Proof.
  split; [apply slide_mode |].
  rewrite slide_eaMoved. now destruct (mode ui).
Qed.

Lemma reselect_then_slide_Coupled (ui : UI) (k : ScKey) (k' : SliderKey) (v : R) :
  is_Ea k' = false -> Coupled (slide (pickSc ui k) k' v).
Proof.
  intros Hk. split; [apply slide_mode |].
  rewrite slide_eaMoved. cbn. exact Hk.
Qed.

(** C5: once the Ea control has been moved, every later state reached
    without re-selecting a scenario (further slider moves on any control,
    teaching-step clicks) is in manual mode and computes [pv] with the
    direct solver on the slider values; after re-selecting a scenario,
    the states reached by moving controls other than Ea compute [pv]
    with the pinned solver. *)
Theorem Ea_touch_is_sticky (ui0 : UI) (v0 : R) (moves : list Event)
    (k : ScKey) (k' : SliderKey) (v : R) (rest : list Event) :
  forallb (fun e => negb (is_PickSc e)) moves = true ->
  is_Ea k' = false ->
  forallb is_nonEa_slide rest = true ->
  let ui := run (slide ui0 kEa v0) moves in
  let ui' := run (pickSc ui k) (Slide k' v :: rest) in
  (mode ui = manual /\ solver_of ui = Direct
   /\ pv ui = computeState (Sl.Ees (sl ui)) (Sl.EDV (sl ui))
                           (Sl.Ea (sl ui)) (Sl.alpha (sl ui)))
  /\ (mode ui' = manual /\ solver_of ui' = Pinned
      /\ pv ui' = computePinned (Sl.Ees (sl ui')) (Sl.EDV (sl ui'))
                                (Sl.alpha (sl ui')) (ESP normSt) (LVEDP normSt)).
Proof.
  intros Hmoves Hk' Hrest ui ui'.
  assert (Hd : Decoupled ui).
  { apply Decoupled_run; [apply slide_Ea_Decoupled | exact Hmoves]. }
  assert (Hc : Coupled ui').
  { subst ui'. cbn [run fold_left handle].
    apply (Coupled_run rest); [| exact Hrest].
    apply reselect_then_slide_Coupled. exact Hk'. }
  destruct (Decoupled_direct ui Hd) as [Hs Hpv].
  destruct (Coupled_pinned ui' Hc) as [Hs' Hpv'].
  destruct Hd as [Hm _]. destruct Hc as [Hm' _].
  repeat split; assumption.
Qed.

Lemma Ea_touch_is_sticky_witness :
  let ui := run (slide initialUI kEa 3) [Slide kEes 4; StepNext; Slide kEDV 150] in
  let ui' := run (pickSc ui hfref) [Slide kalpha 0.03; Slide kEes 1.5] in
  (mode ui = manual /\ solver_of ui = Direct
   /\ pv ui = computeState (Sl.Ees (sl ui)) (Sl.EDV (sl ui))
                           (Sl.Ea (sl ui)) (Sl.alpha (sl ui)))
  /\ (mode ui' = manual /\ solver_of ui' = Pinned
      /\ pv ui' = computePinned (Sl.Ees (sl ui')) (Sl.EDV (sl ui'))
                                (Sl.alpha (sl ui')) (ESP normSt) (LVEDP normSt)).
Proof.
  apply (Ea_touch_is_sticky initialUI 3
           [Slide kEes 4; StepNext; Slide kEDV 150] hfref kalpha 0.03
           [Slide kEes 1.5]); reflexivity.
Defined.

(** Conversely, a pinned computation after the Ea control was moved
    means a scenario was re-selected in between. *)
Lemma pinned_again_needs_reselect (ui0 : UI) (v0 : R) (evs : list Event) :
  solver_of (run (slide ui0 kEa v0) evs) = Pinned ->
  existsb is_PickSc evs = true.
Proof.
  intros Hp.
  destruct (existsb is_PickSc evs) eqn:Hex; [reflexivity | exfalso].
  assert (Hall : forallb (fun e => negb (is_PickSc e)) evs = true).
  { apply forallb_forall. intros e Hin. apply negb_true_iff.
    destruct (is_PickSc e) eqn:He; [| reflexivity].
    assert (existsb is_PickSc evs = true)
      by (apply existsb_exists; exists e; split; assumption).
    congruence. }
  destruct (Decoupled_direct _
              (Decoupled_run evs _ (slide_Ea_Decoupled ui0 v0) Hall)) as [Hs _].
  congruence.
Qed.

(** The first Ea move is what leaves the coupled state. *)
Lemma Coupled_to_Decoupled (ui : UI) (v : R) :
  Coupled ui -> Decoupled (slide ui kEa v).
Proof. intros _. apply slide_Ea_Decoupled. Qed.

(** ** Readouts *)

Lemma exp_0_9_lower : 1.9 < exp 0.9.
Proof. pose proof (exp_ineq1 0.9). lra. Qed.

Lemma exp_7_2_lower : 101 < exp 7.2.
Proof.
  replace 7.2 with ((0.9 + 0.9) + (0.9 + 0.9) + ((0.9 + 0.9) + (0.9 + 0.9)))
    by lra.
  rewrite !exp_plus.
  pose proof exp_0_9_lower as H.
  set (e := exp 0.9) in *.
  assert (H2 : 3.61 < e * e) by nra.
  assert (H4 : 13 < e * e * (e * e)) by nra.
  nra.
Qed.

(** C10: the LVEDP cell of the readout grid shows, and feeds to its
    delta indicator, [min (LVEDP, 50)]; the other five cells show the
    state's own EDV, ESV, ESP, SV and EF.  When the computed LVEDP
    exceeds 50 the LVEDP cell shows 50, below the computed value. *)
Theorem readout_LVEDP_capped (st : State) :
  map cell (readouts st)
  = [ (EDV st, D (EDV st) (EDV normSt));
      (Rmin (LVEDP st) 50, D (Rmin (LVEDP st) 50) (LVEDP normSt));
      (ESV st, D (ESV st) (ESV normSt));
      (ESP st, D (ESP st) (ESP normSt));
      (SV st, D (SV st) (SV normSt));
      (EF st, D (EF st) (EF normSt)) ]
  /\ (50 < LVEDP st ->
      nth 1 (map cell (readouts st)) (0, None)
      = (50, D 50 (LVEDP normSt))
      /\ dispLVEDP st < LVEDP st).
Proof.
  split; [reflexivity |].
  intros Hbig. cbn [readouts map nth cell Readout.v Readout.r].
  unfold dispLVEDP.
  rewrite Rmin_right by lra. split; [reflexivity | exact Hbig].
Qed.

Lemma readout_LVEDP_capped_witness :
  let st := computeState 2.5 180 2.0 0.04 in
  nth 1 (map cell (readouts st)) (0, None) = (50, D 50 (LVEDP normSt))
  /\ dispLVEDP st < LVEDP st.
Proof.
  apply (readout_LVEDP_capped (computeState 2.5 180 2.0 0.04)).
  cbn -[exp]. unfold A_ED.
  replace (0.04 * 180) with 7.2 by lra.
  pose proof exp_7_2_lower. lra.
Defined.

(** The baseline filling pressure is far below the cap, so a capped
    LVEDP cell always carries the up arrow. *)
Lemma normSt_LVEDP_upper : LVEDP normSt < 49.5.
Proof.
  rewrite normSt_LVEDP. unfold A_ED.
  assert (Hle : exp (0.02 * 120) <= exp 3).
  { left. apply exp_increasing. lra. }
  replace 3 with (1 + (1 + 1)) in Hle by lra.
  rewrite !exp_plus in Hle.
  pose proof exp_le_3 as H3. pose proof (exp_pos 1) as Hp.
  set (e := exp 1) in *.
  assert (e * e <= 9) by nra.
  assert (e * (e * e) <= 27) by nra.
  lra.
Qed.

Lemma capped_LVEDP_arrow (st : State) :
  50 < LVEDP st -> D (dispLVEDP st) (LVEDP normSt) = Some ArrowUp.
Proof.
  intros Hbig. unfold dispLVEDP. rewrite Rmin_right by lra.
  pose proof normSt_LVEDP_upper as Hn.
  unfold D. cbv zeta.
  destruct (Rlt_dec _ _) as [Hc | _].
  - apply Rabs_def2 in Hc. lra.
  - destruct (Rgt_dec _ _); [reflexivity | lra].
Qed.

(** * Further properties of the engine *)

(** ** Direct mode *)

(** X1: for Ees, Ea > 0 and EDV > V0 the end-systolic point returned by
    the direct solver lies on the arterial-elastance line through
    (EDV, 0) as well as on the ESPVR, and its pressure is positive. *)
Theorem computeState_intersection (Ees EDV0 Ea alpha : R) :
  0 < Ees -> 0 < Ea -> V0 < EDV0 ->
  let st := computeState Ees EDV0 Ea alpha in
  ESP st = espvr (ESV st) Ees /\ ESP st = Ea * (EDV st - ESV st)
  /\ ESP st = Ea * SV st /\ 0 < ESP st.
Proof.
  intros HEes HEa HEDV st.
  assert (Hsum : Ees + Ea <> 0) by lra.
  pose proof (computeState_ESP_elastance Ees EDV0 Ea alpha Hsum) as HE.
  pose proof (computeState_SV_closed Ees EDV0 Ea alpha Hsum) as HSV.
  destruct (computeState_fields Ees EDV0 Ea alpha) as (HD & HP & HS & _).
  fold st in HE, HSV, HD, HP, HS.
  assert (Hsv : 0 < SV st).
  { rewrite HSV. apply Rdiv_lt_0_compat; [apply Rmult_lt_0_compat|]; lra. }
  split; [exact HP |].
  split; [rewrite HD; exact HE |].
  split; [rewrite HS, HD; exact HE |].
  rewrite HE. apply Rmult_lt_0_compat; lra.
Qed.

Lemma computeState_intersection_witness :
  let st := computeState 1.0 180 2.2 0.02 in
  ESP st = espvr (ESV st) 1.0 /\ ESP st = 2.2 * (EDV st - ESV st)
  /\ ESP st = 2.2 * SV st /\ 0 < ESP st.
Proof.
  apply (computeState_intersection 1.0 180 2.2 0.02); unfold V0; lra.
Defined.

(** X2: for Ees, Ea > 0 and EDV > V0 the ejection fraction of the direct
    solver is strictly between 0 and 100, and never reaches
    100 * Ees / (Ees + Ea). *)
Theorem computeState_EF_range (Ees EDV0 Ea alpha : R) :
  0 < Ees -> 0 < Ea -> V0 < EDV0 ->
  let st := computeState Ees EDV0 Ea alpha in
  0 < EF st < 100 /\ EF st < 100 * Ees / (Ees + Ea).
Proof.
  intros HEes HEa HEDV st.
  assert (Hsum : Ees + Ea <> 0) by lra.
  assert (HEDVpos : 0 < EDV0) by (unfold V0 in HEDV; lra).
  assert (HEF : EF st = 100 * Ees / (Ees + Ea) * ((EDV0 - V0) / EDV0)).
  { subst st. cbn -[exp]. field. split; lra. }
  assert (Hk : 0 < 100 * Ees / (Ees + Ea) < 100).
  { split.
    - apply Rdiv_lt_0_compat; lra.
    - apply Rmult_lt_reg_r with (Ees + Ea); [lra |].
      unfold Rdiv. rewrite Rmult_assoc, Rinv_l by lra. lra. }
  assert (Hr : 0 < (EDV0 - V0) / EDV0 < 1).
  { split.
    - apply Rdiv_lt_0_compat; lra.
    - apply Rmult_lt_reg_r with EDV0; [lra |].
      unfold Rdiv. rewrite Rmult_assoc, Rinv_l by lra. unfold V0. lra. }
  rewrite HEF. nra.
Qed.

Lemma computeState_EF_range_witness :
  let st := computeState 3.0 130 3.5 0.02 in
  0 < EF st < 100 /\ EF st < 100 * 3.0 / (3.0 + 3.5).
Proof.
  apply (computeState_EF_range 3.0 130 3.5 0.02); unfold V0; lra.
Defined.

(** X3: afterload.  With Ees > 0 and EDV > V0, raising Ea (0 < Ea1 <
    Ea2) strictly raises the ESV and the ESP of the direct solver and
    strictly lowers its SV and EF: the loop gets taller and narrower. *)
Theorem computeState_Ea_monotone (Ees EDV0 alpha Ea1 Ea2 : R) :
  0 < Ees -> 0 < Ea1 -> Ea1 < Ea2 -> V0 < EDV0 ->
  let st1 := computeState Ees EDV0 Ea1 alpha in
  let st2 := computeState Ees EDV0 Ea2 alpha in
  ESV st1 < ESV st2 /\ ESP st1 < ESP st2
  /\ SV st2 < SV st1 /\ EF st2 < EF st1.
Proof.
  intros HEes HEa1 H12 HEDV st1 st2.
  assert (HEDVpos : 0 < EDV0) by (unfold V0 in HEDV; lra).
  assert (HSV : SV st2 < SV st1).
  { subst st1 st2. rewrite !computeState_SV_closed by lra.
    unfold Rdiv. apply Rmult_lt_compat_l.
    - apply Rmult_lt_0_compat; lra.
    - apply Rinv_lt_contravar; [apply Rmult_lt_0_compat|]; lra. }
  destruct (computeState_fields Ees EDV0 Ea1 alpha) as (HD1 & HP1 & HS1 & HF1 & _).
  destruct (computeState_fields Ees EDV0 Ea2 alpha) as (HD2 & HP2 & HS2 & HF2 & _).
  fold st1 in HD1, HP1, HS1, HF1. fold st2 in HD2, HP2, HS2, HF2.
  assert (HESV : ESV st1 < ESV st2) by lra.
  repeat split.
  - exact HESV.
  - rewrite HP1, HP2. unfold espvr. apply Rmult_lt_compat_l; lra.
  - exact HSV.
  - rewrite HF1, HF2, HD1, HD2.
    apply Rmult_lt_compat_r; [lra |].
    unfold Rdiv. apply Rmult_lt_compat_r; [apply Rinv_0_lt_compat; lra | lra].
Qed.

Lemma computeState_Ea_monotone_witness :
  let st1 := computeState 2.5 120 2.0 0.02 in
  let st2 := computeState 2.5 120 3.5 0.02 in
  ESV st1 < ESV st2 /\ ESP st1 < ESP st2
  /\ SV st2 < SV st1 /\ EF st2 < EF st1.
Proof.
  apply (computeState_Ea_monotone 2.5 120 0.02 2.0 3.5); unfold V0; lra.
Defined.

(** X4: preload in direct mode.  With Ees, Ea > 0, raising EDV
    (V0 < EDV1 < EDV2) strictly raises ESV, ESP, SV and EF together:
    in direct mode the left side of the loop moves with the right. *)
Theorem computeState_EDV_monotone (Ees Ea alpha EDV1 EDV2 : R) :
  0 < Ees -> 0 < Ea -> V0 < EDV1 -> EDV1 < EDV2 ->
  let st1 := computeState Ees EDV1 Ea alpha in
  let st2 := computeState Ees EDV2 Ea alpha in
  ESV st1 < ESV st2 /\ ESP st1 < ESP st2
  /\ SV st1 < SV st2 /\ EF st1 < EF st2.
Proof.
  intros HEes HEa H1 H12 st1 st2.
  assert (Hsum : Ees + Ea <> 0) by lra.
  assert (Hinv : 0 < / (Ees + Ea)) by (apply Rinv_0_lt_compat; lra).
  assert (HESV : ESV st1 < ESV st2).
  { subst st1 st2. rewrite !computeState_ESV_offset by exact Hsum.
    apply Rplus_lt_compat_l. unfold Rdiv.
    apply Rmult_lt_compat_r; [exact Hinv |].
    apply Rmult_lt_compat_l; lra. }
  assert (HSV : SV st1 < SV st2).
  { subst st1 st2. rewrite !computeState_SV_closed by exact Hsum.
    unfold Rdiv. apply Rmult_lt_compat_r; [exact Hinv |].
    apply Rmult_lt_compat_l; lra. }
  destruct (computeState_fields Ees EDV1 Ea alpha) as (_ & HP1 & _).
  destruct (computeState_fields Ees EDV2 Ea alpha) as (_ & HP2 & _).
  fold st1 in HP1. fold st2 in HP2.
  repeat split.
  - exact HESV.
  - rewrite HP1, HP2. unfold espvr. apply Rmult_lt_compat_l; lra.
  - exact HSV.
  - assert (HEF : forall E, 0 < E ->
              EF (computeState Ees E Ea alpha)
              = 100 * Ees / (Ees + Ea) * (1 - V0 / E)).
    { intros E HE. cbn -[exp]. field. split; lra. }
    unfold V0 in H1.
    subst st1 st2. rewrite !HEF by lra.
    apply Rmult_lt_compat_l.
    + apply Rdiv_lt_0_compat; lra.
    + assert (/ EDV2 < / EDV1)
        by (apply Rinv_lt_contravar; [apply Rmult_lt_0_compat|]; lra).
      unfold Rdiv, V0. lra.
Qed.

Lemma computeState_EDV_monotone_witness :
  let st1 := computeState 2.5 120 2.0 0.02 in
  let st2 := computeState 2.5 150 2.0 0.02 in
  ESV st1 < ESV st2 /\ ESP st1 < ESP st2
  /\ SV st1 < SV st2 /\ EF st1 < EF st2.
Proof.
  apply (computeState_EDV_monotone 2.5 2.0 0.02 120 150); unfold V0; lra.
Defined.

(** ** Pinned mode *)

Lemma ln_cap_nonneg (P : R) : 0 <= P -> 0 <= ln (P / A_ED + 1).
Proof.
  intros HP. unfold A_ED.
  destruct (Req_dec P 0) as [-> | Hne].
  - replace (0 / 0.5 + 1) with 1 by lra. rewrite ln_1. lra.
  - left. rewrite <- ln_1. apply ln_increasing; lra.
Qed.

Lemma edpvr_monotone (alpha V1 V2 : R) :
  0 < alpha -> V1 <= V2 -> edpvr V1 alpha <= edpvr V2 alpha.
Proof.
  intros Ha [Hlt | ->]; [left; now apply edpvr_increasing | lra].
Qed.

(** X5: round trip between the solvers.  For Ees, Ea, alpha > 0, a
    direct-mode state with EDV >= 50 and SV >= 1 is returned unchanged by
    the pinned solver when it is given the same Ees, EDV and alpha and
    that state's own ESP and LVEDP as references. *)
Theorem computePinned_recovers_direct (Ees EDV0 Ea alpha : R) :
  0 < Ees -> 0 < Ea -> 0 < alpha -> 50 <= EDV0 ->
  1 <= SV (computeState Ees EDV0 Ea alpha) ->
  let st0 := computeState Ees EDV0 Ea alpha in
  computePinned Ees EDV0 alpha (ESP st0) (LVEDP st0) = st0.
Proof.
  intros HEes HEa Ha HEDV HSV st0.
  assert (Hcap : ln (LVEDP st0 / A_ED + 1) / alpha = EDV0).
  { subst st0. cbn -[exp ln].
    replace (A_ED * (exp (alpha * EDV0) - 1) / A_ED + 1)
      with (exp (alpha * EDV0)) by (unfold A_ED; lra).
    rewrite ln_exp. field. lra. }
  assert (Hq : ESP st0 / Ees + V0 = ESV st0).
  { subst st0. cbn -[exp ln]. field. lra. }
  assert (Hle : ESV st0 <= EDV0 - 1).
  { destruct (computeState_fields Ees EDV0 Ea alpha) as (HD & _ & HS & _).
    fold st0 in HD, HS. rewrite HD in HS. fold st0 in HSV. lra. }
  unfold computePinned.
  rewrite Hcap, Hq.
  rewrite (Rmin_left EDV0 EDV0) by lra.
  rewrite (Rmax_right 50 EDV0) by exact HEDV.
  rewrite (Rmin_left (ESV st0) (EDV0 - 1)) by exact Hle.
  reflexivity.
Qed.

Lemma computePinned_recovers_direct_witness :
  let st0 := computeState 2.5 120 2.0 0.02 in
  computePinned 2.5 120 0.02 (ESP st0) (LVEDP st0) = st0.
Proof.
  apply (computePinned_recovers_direct 2.5 120 2.0 0.02); try lra.
  cbn -[exp]. unfold V0. lra.
Defined.

(** X6: with Ees > 0, a non-negative reference ESP, alpha <> 0 and a
    reference LVEDP above -A_ED (so that the quotients and the logarithm
    are the mathematical ones), every pinned state is a valid
    hemodynamic state: 50 <= EDV <= max(50, sliderEDV),
    V0 <= ESV <= EDV - 1, SV >= 1 and 0 < EF < 100. *)
Theorem computePinned_valid (Ees sliderEDV alpha refESP refLVEDP : R) :
  0 < Ees -> 0 <= refESP -> alpha <> 0 -> - A_ED < refLVEDP ->
  let st := computePinned Ees sliderEDV alpha refESP refLVEDP in
  50 <= EDV st <= Rmax 50 sliderEDV
  /\ V0 <= ESV st <= EDV st - 1
  /\ 1 <= SV st
  /\ 0 < EF st < 100.
Proof.
  intros HEes Href _ _ st.
  destruct (computePinned_EDV_range Ees sliderEDV alpha refESP refLVEDP)
    as [Hlo Hhi].
  destruct (computePinned_fields Ees sliderEDV alpha refESP refLVEDP)
    as (_ & HS & HF & _).
  fold st in Hlo, Hhi, HS, HF.
  assert (Hcap : ESV st <= EDV st - 1).
  { change (Rmin (refESP / Ees + V0) (EDV st - 1) <= EDV st - 1).
    apply Rmin_r. }
  assert (Hsv : 1 <= SV st) by lra.
  assert (HV0 : V0 <= ESV st).
  { assert (0 <= refESP / Ees).
    { apply Rmult_le_pos; [exact Href | left; now apply Rinv_0_lt_compat]. }
    subst st. cbn -[exp ln] in *. unfold V0 in *. rminmax. }
  split; [split; assumption |].
  split; [split; assumption |].
  split; [exact Hsv |].
  assert (Hinv : 0 < / EDV st) by (apply Rinv_0_lt_compat; lra).
  rewrite HF. unfold Rdiv. unfold V0 in HV0.
  split.
  - apply Rmult_lt_0_compat; [apply Rmult_lt_0_compat; lra | lra].
  - assert (SV st * / EDV st < 1).
    { apply Rmult_lt_reg_r with (EDV st); [lra |].
      rewrite Rmult_assoc, Rinv_l by lra. lra. }
    lra.
Qed.

Lemma computePinned_valid_witness :
  let st := computePinned 0.5 180 0.04 (1100 / 9) 5 in
  50 <= EDV st <= Rmax 50 180
  /\ V0 <= ESV st <= EDV st - 1
  /\ 1 <= SV st
  /\ 0 < EF st < 100.
Proof.
  apply (computePinned_valid 0.5 180 0.04 (1100 / 9) 5); unfold A_ED; lra.
Defined.

(** X7: what the filling-pressure pin guarantees.  For alpha > 0 and
    refLVEDP > 0 the LVEDP of a pinned state never exceeds the larger of
    refLVEDP and the EDPVR pressure at the 50-unit volume floor; in
    particular it stays at or below refLVEDP whenever the EDPVR at
    volume 50 does. *)
Theorem computePinned_LVEDP_bound (Ees sliderEDV alpha refESP refLVEDP : R) :
  0 < alpha -> 0 < refLVEDP ->
  let st := computePinned Ees sliderEDV alpha refESP refLVEDP in
  LVEDP st <= Rmax refLVEDP (edpvr 50 alpha)
  /\ (edpvr 50 alpha <= refLVEDP -> LVEDP st <= refLVEDP).
Proof.
  intros Ha HP st.
  destruct (computePinned_fields Ees sliderEDV alpha refESP refLVEDP)
    as (_ & _ & _ & HL & _).
  fold st in HL.
  set (cap := ln (refLVEDP / A_ED + 1) / alpha).
  assert (Hinv : edpvr cap alpha = refLVEDP).
  { apply edpvr_inverse; [lra |].
    assert (0 < refLVEDP / A_ED) by (apply Rdiv_lt_0_compat; unfold A_ED; lra).
    lra. }
  assert (HEDV : EDV st <= Rmax 50 cap).
  { subst st. cbn -[exp ln]. fold cap. rminmax. }
  assert (Hb : LVEDP st <= Rmax refLVEDP (edpvr 50 alpha)).
  { rewrite HL.
    apply Rle_trans with (edpvr (Rmax 50 cap) alpha).
    - apply edpvr_monotone; assumption.
    - unfold Rmax at 1. destruct (Rle_dec 50 cap).
      + rewrite Hinv. apply Rmax_l.
      + apply Rmax_r. }
  split; [exact Hb |].
  intros H50. rewrite Rmax_left in Hb by exact H50. exact Hb.
Qed.

Lemma computePinned_LVEDP_bound_witness :
  let st := computePinned 2.5 120 0.02 (1100 / 9) 5 in
  LVEDP st <= Rmax 5 (edpvr 50 0.02) /\ LVEDP st <= 5.
Proof.
  assert (H50 : edpvr 50 0.02 <= 5).
  { unfold edpvr, A_ED. replace (0.02 * 50) with 1 by lra.
    pose proof exp_le_3. lra. }
  destruct (computePinned_LVEDP_bound 2.5 120 0.02 (1100 / 9) 5) as [Hb Hp];
    [lra | lra |].
  split; [exact Hb | exact (Hp H50)].
Defined.

(** X8: the preload slider in pinned mode.  For Ees <> 0, alpha <> 0
    and a reference LVEDP above -A_ED, raising sliderEDV never lowers
    EDV or ESV and leaves ESP untouched; while the ESV cap EDV - 1 is
    not reached, ESV stays where it is and only the right side of the
    loop moves, so SV grows by the change in EDV. *)
Theorem computePinned_preload (Ees alpha refESP refLVEDP s1 s2 : R) :
  Ees <> 0 -> alpha <> 0 -> - A_ED < refLVEDP -> s1 <= s2 ->
  let st1 := computePinned Ees s1 alpha refESP refLVEDP in
  let st2 := computePinned Ees s2 alpha refESP refLVEDP in
  EDV st1 <= EDV st2 /\ ESV st1 <= ESV st2 /\ ESP st1 = ESP st2
  /\ (refESP / Ees + V0 <= EDV st1 - 1 ->
      ESV st2 = ESV st1 /\ SV st2 - SV st1 = EDV st2 - EDV st1).
Proof.
  intros _ _ _ Hs st1 st2.
  assert (HE : EDV st1 <= EDV st2).
  { subst st1 st2. cbn -[exp ln].
    apply Rle_max_compat_l. now apply Rle_min_compat_l. }
  assert (HV1 : ESV st1 = Rmin (refESP / Ees + V0) (EDV st1 - 1)) by reflexivity.
  assert (HV2 : ESV st2 = Rmin (refESP / Ees + V0) (EDV st2 - 1)) by reflexivity.
  destruct (computePinned_fields Ees s1 alpha refESP refLVEDP) as (_ & HS1 & _).
  destruct (computePinned_fields Ees s2 alpha refESP refLVEDP) as (_ & HS2 & _).
  fold st1 in HS1. fold st2 in HS2.
  split; [exact HE |].
  split; [rewrite HV1, HV2; apply Rle_min_compat_l; lra |].
  split; [reflexivity |].
  intros Hfree.
  assert (ESV st1 = refESP / Ees + V0) by (rewrite HV1; apply Rmin_left; lra).
  assert (ESV st2 = refESP / Ees + V0) by (rewrite HV2; apply Rmin_left; lra).
  split; lra.
Qed.

Lemma computePinned_preload_witness :
  let st1 := computePinned 2.5 60 0.02 (ESP normSt) (LVEDP normSt) in
  let st2 := computePinned 2.5 90 0.02 (ESP normSt) (LVEDP normSt) in
  EDV st1 <= EDV st2 /\ ESV st1 <= ESV st2 /\ ESP st1 = ESP st2
  /\ ESV st2 = ESV st1 /\ SV st2 - SV st1 = EDV st2 - EDV st1.
Proof.
  pose proof normSt_LVEDP_pos as Hpos.
  destruct (computePinned_preload 2.5 0.02 (ESP normSt) (LVEDP normSt) 60 90)
    as (H1 & H2 & H3 & H4); [lra | lra | unfold A_ED; lra | lra |].
  split; [exact H1 |]. split; [exact H2 |]. split; [exact H3 |].
  apply H4.
  cbn -[exp ln normSt]. rewrite normSt_cap, normSt_ESP. unfold V0. rminmax.
Defined.

(** X9: the contractility slider in pinned mode.  With 0 < Ees1 < Ees2,
    a non-negative reference ESP, alpha <> 0 and a reference LVEDP above
    -A_ED, raising Ees leaves EDV, ESP and LVEDP where they are and
    never raises ESV, so SV and EF never fall; when the reference ESP is
    positive and the ESV cap is not reached at Ees1, ESV falls
    strictly. *)
Theorem computePinned_inotropy (sliderEDV alpha refESP refLVEDP Ees1 Ees2 : R) :
  0 < Ees1 -> Ees1 < Ees2 -> 0 <= refESP ->
  alpha <> 0 -> - A_ED < refLVEDP ->
  let st1 := computePinned Ees1 sliderEDV alpha refESP refLVEDP in
  let st2 := computePinned Ees2 sliderEDV alpha refESP refLVEDP in
  EDV st2 = EDV st1 /\ ESP st2 = ESP st1 /\ LVEDP st2 = LVEDP st1
  /\ ESV st2 <= ESV st1 /\ SV st1 <= SV st2 /\ EF st1 <= EF st2
  /\ (0 < refESP -> refESP / Ees1 + V0 <= EDV st1 - 1 -> ESV st2 < ESV st1).
Proof.
  intros H1 H12 Href _ _ st1 st2.
  assert (HD : EDV st2 = EDV st1) by reflexivity.
  assert (HV1 : ESV st1 = Rmin (refESP / Ees1 + V0) (EDV st1 - 1)) by reflexivity.
  assert (HV2 : ESV st2 = Rmin (refESP / Ees2 + V0) (EDV st1 - 1)) by reflexivity.
  assert (Hinv : / Ees2 < / Ees1).
  { apply Rinv_lt_contravar; [apply Rmult_lt_0_compat|]; lra. }
  assert (Hq : refESP / Ees2 <= refESP / Ees1).
  { unfold Rdiv. apply Rmult_le_compat_l; lra. }
  assert (HV : ESV st2 <= ESV st1).
  { rewrite HV1, HV2. apply Rle_min_compat_r. lra. }
  destruct (computePinned_fields Ees1 sliderEDV alpha refESP refLVEDP)
    as (_ & HS1 & HF1 & _).
  destruct (computePinned_fields Ees2 sliderEDV alpha refESP refLVEDP)
    as (_ & HS2 & HF2 & _).
  fold st1 in HS1, HF1. fold st2 in HS2, HF2.
  destruct (computePinned_EDV_range Ees1 sliderEDV alpha refESP refLVEDP)
    as [Hlo _].
  fold st1 in Hlo.
  split; [reflexivity |]. split; [reflexivity |]. split; [reflexivity |].
  split; [exact HV |].
  split; [lra |].
  split.
  - rewrite HF1, HF2, HD.
    apply Rmult_le_compat_r; [lra |].
    unfold Rdiv. apply Rmult_le_compat_r; [| lra].
    left. apply Rinv_0_lt_compat. lra.
  - intros Hpos Hfree.
    assert (refESP / Ees2 < refESP / Ees1).
    { unfold Rdiv. apply Rmult_lt_compat_l; assumption. }
    rewrite HV1, HV2.
    rewrite (Rmin_left (refESP / Ees1 + V0)) by exact Hfree.
    rewrite (Rmin_left (refESP / Ees2 + V0)) by lra.
    lra.
Qed.

Lemma computePinned_inotropy_witness :
  let st1 := computePinned 2.5 120 0.02 (ESP normSt) (LVEDP normSt) in
  let st2 := computePinned 4.0 120 0.02 (ESP normSt) (LVEDP normSt) in
  EDV st2 = EDV st1 /\ ESP st2 = ESP st1 /\ LVEDP st2 = LVEDP st1
  /\ ESV st2 <= ESV st1 /\ SV st1 <= SV st2 /\ EF st1 <= EF st2
  /\ ESV st2 < ESV st1.
Proof.
  pose proof normSt_ESP as HESP.
  pose proof normSt_LVEDP_pos as Hpos.
  destruct (computePinned_inotropy 120 0.02 (ESP normSt) (LVEDP normSt) 2.5 4.0)
    as (H1 & H2 & H3 & H4 & H5 & H6 & H7);
    [lra | lra | lra | lra | unfold A_ED; lra |].
  repeat (split; [assumption |]).
  apply H7; [lra |].
  cbn -[exp ln normSt]. rewrite normSt_cap, HESP. unfold V0. rminmax.
Defined.

(** X10: the compliance slider in pinned mode.  With Ees <> 0,
    0 < alpha1 < alpha2 and a non-negative reference LVEDP, a stiffer
    ventricle never fills to a larger volume: EDV and ESV do not rise,
    ESP is unchanged. *)
Theorem computePinned_stiffness (Ees sliderEDV refESP refLVEDP alpha1 alpha2 : R) :
  Ees <> 0 -> 0 < alpha1 -> alpha1 < alpha2 -> 0 <= refLVEDP ->
  let st1 := computePinned Ees sliderEDV alpha1 refESP refLVEDP in
  let st2 := computePinned Ees sliderEDV alpha2 refESP refLVEDP in
  EDV st2 <= EDV st1 /\ ESV st2 <= ESV st1 /\ ESP st2 = ESP st1.
Proof.
  intros _ H1 H12 HP st1 st2.
  pose proof (ln_cap_nonneg refLVEDP HP) as HL.
  assert (Hinv : / alpha2 < / alpha1).
  { apply Rinv_lt_contravar; [apply Rmult_lt_0_compat|]; lra. }
  assert (Hcap : ln (refLVEDP / A_ED + 1) / alpha2
                 <= ln (refLVEDP / A_ED + 1) / alpha1).
  { unfold Rdiv. apply Rmult_le_compat_l; lra. }
  assert (HE : EDV st2 <= EDV st1).
  { subst st1 st2. cbn -[exp ln].
    apply Rle_max_compat_l. now apply Rle_min_compat_r. }
  split; [exact HE |].
  split; [| reflexivity].
  change (Rmin (refESP / Ees + V0) (EDV st2 - 1)
          <= Rmin (refESP / Ees + V0) (EDV st1 - 1)).
  apply Rle_min_compat_l. lra.
Qed.

Lemma computePinned_stiffness_witness :
  let st1 := computePinned 2.5 120 0.02 (1100 / 9) 5 in
  let st2 := computePinned 2.5 120 0.035 (1100 / 9) 5 in
  EDV st2 <= EDV st1 /\ ESV st2 <= ESV st1 /\ ESP st2 = ESP st1.
Proof.
  apply (computePinned_stiffness 2.5 120 (1100 / 9) 5 0.02 0.035); lra.
Defined.

(** ** Compliance-driven EDV *)

Lemma refLVEDP_inverse (s : R) :
  ln (A_ED * (exp (REF_ALPHA * s) - 1) / A_ED + 1) = REF_ALPHA * s.
Proof.
  replace (A_ED * (exp (REF_ALPHA * s) - 1) / A_ED + 1)
    with (exp (REF_ALPHA * s)) by (unfold A_ED; lra).
  apply ln_exp.
Qed.

Lemma getEffectiveEDV_dividing (s alpha : R) :
  ~ Rabs (alpha - REF_ALPHA) < 0.001 -> 0.001 < alpha ->
  getEffectiveEDV s alpha = Rmax 50 (Rmin (REF_ALPHA * s / alpha) 200).
Proof.
  intros Hfar Hpos. unfold getEffectiveEDV.
  destruct (Rlt_dec _ _); [contradiction |].
  destruct (Rle_dec _ _); [lra |].
  now rewrite refLVEDP_inverse.
Qed.

Lemma getEffectiveEDV_identity (s alpha : R) :
  Rabs (alpha - REF_ALPHA) < 0.001 -> getEffectiveEDV s alpha = s.
Proof.
  intros Hn. unfold getEffectiveEDV.
  destruct (Rlt_dec _ _); [reflexivity | contradiction].
Qed.

(** X11: away from the two guards (alpha not within 0.001 of REF_ALPHA,
    alpha > 0.001) [getEffectiveEDV] is REF_ALPHA * sliderEDV / alpha
    clamped to [50, 200]; when the clamp is idle, the returned volume has
    at stiffness alpha exactly the filling pressure that sliderEDV has at
    the reference stiffness. *)
Theorem getEffectiveEDV_same_filling_pressure (sliderEDV alpha : R) :
  ~ Rabs (alpha - REF_ALPHA) < 0.001 -> 0.001 < alpha ->
  getEffectiveEDV sliderEDV alpha
  = Rmax 50 (Rmin (REF_ALPHA * sliderEDV / alpha) 200)
  /\ 50 <= getEffectiveEDV sliderEDV alpha <= 200
  /\ (50 <= REF_ALPHA * sliderEDV / alpha <= 200 ->
      edpvr (getEffectiveEDV sliderEDV alpha) alpha
      = edpvr sliderEDV REF_ALPHA).
Proof.
  intros Hfar Hpos.
  assert (Heq : getEffectiveEDV sliderEDV alpha
                = Rmax 50 (Rmin (REF_ALPHA * sliderEDV / alpha) 200)).
  { now apply getEffectiveEDV_dividing. }
  split; [exact Heq |].
  split; [rewrite Heq; rminmax |].
  intros [Hlo Hhi]. rewrite Heq.
  rewrite Rmin_left by exact Hhi. rewrite Rmax_right by exact Hlo.
  unfold edpvr. f_equal. f_equal. f_equal. field. lra.
Qed.

Lemma getEffectiveEDV_same_filling_pressure_witness :
  getEffectiveEDV 120 0.03 = Rmax 50 (Rmin (REF_ALPHA * 120 / 0.03) 200)
  /\ 50 <= getEffectiveEDV 120 0.03 <= 200
  /\ edpvr (getEffectiveEDV 120 0.03) 0.03 = edpvr 120 REF_ALPHA.
Proof.
  destruct (getEffectiveEDV_same_filling_pressure 120 0.03) as (H1 & H2 & H3).
  - unfold REF_ALPHA. intros Hc. apply Rabs_def2 in Hc. lra.
  - lra.
  - split; [exact H1 |]. split; [exact H2 |].
    apply H3. unfold REF_ALPHA. lra.
Defined.

Lemma getEffectiveEDV_fast (s alpha : R) :
  50 <= s <= 200 -> 0.001 < alpha ->
  (Rabs (alpha - REF_ALPHA) < 0.001 /\ getEffectiveEDV s alpha = s)
  \/ (~ Rabs (alpha - REF_ALPHA) < 0.001
      /\ getEffectiveEDV s alpha = Rmax 50 (Rmin (REF_ALPHA * s / alpha) 200)).
Proof.
  intros Hs Ha.
  destruct (Rlt_dec (Rabs (alpha - REF_ALPHA)) 0.001) as [Hn | Hf].
  - left. split; [exact Hn |].
    now apply getEffectiveEDV_identity.
  - right. split; [exact Hf |].
    now apply getEffectiveEDV_dividing.
Qed.

(** X12: for a slider volume between 50 and 200 and stiffness above
    0.001, a stiffer ventricle never gets a larger effective EDV, the
    identity fast path included. *)
Theorem getEffectiveEDV_antitone (s alpha1 alpha2 : R) :
  50 <= s <= 200 -> 0.001 < alpha1 -> alpha1 <= alpha2 ->
  getEffectiveEDV s alpha2 <= getEffectiveEDV s alpha1.
Proof.
  intros Hs H1 H12.
  assert (Hquot : forall a, 0 < a ->
            (a <= REF_ALPHA -> s <= REF_ALPHA * s / a)
            /\ (REF_ALPHA <= a -> REF_ALPHA * s / a <= s)).
  { intros a Ha. unfold REF_ALPHA.
    assert (Hi : 0 < / a) by now apply Rinv_0_lt_compat.
    split; intros Hle.
    - apply Rmult_le_reg_r with a; [exact Ha |].
      unfold Rdiv. rewrite Rmult_assoc, Rinv_l by lra. nra.
    - apply Rmult_le_reg_r with a; [exact Ha |].
      unfold Rdiv. rewrite Rmult_assoc, Rinv_l by lra. nra. }
  assert (Hmono : REF_ALPHA * s / alpha2 <= REF_ALPHA * s / alpha1).
  { unfold Rdiv. apply Rmult_le_compat_l; [unfold REF_ALPHA; nra |].
    apply Rinv_le_contravar; lra. }
  destruct (getEffectiveEDV_fast s alpha1 Hs H1) as [[Hn1 ->] | [Hf1 ->]];
  destruct (getEffectiveEDV_fast s alpha2 Hs ltac:(lra)) as [[Hn2 ->] | [Hf2 ->]].
  - lra.
  - assert (Hge : REF_ALPHA <= alpha2).
    { unfold REF_ALPHA in *. apply Rabs_def2 in Hn1.
      destruct (Rle_dec 0.02 alpha2); [assumption | exfalso].
      apply Hf2. apply Rabs_def1; lra. }
    destruct (Hquot alpha2 ltac:(lra)) as [_ Hq]. specialize (Hq Hge).
    rminmax.
  - assert (Hle : alpha1 <= REF_ALPHA).
    { unfold REF_ALPHA in *. apply Rabs_def2 in Hn2.
      destruct (Rle_dec alpha1 0.02); [assumption | exfalso].
      apply Hf1. apply Rabs_def1; lra. }
    destruct (Hquot alpha1 ltac:(lra)) as [Hq _]. specialize (Hq Hle).
    rminmax.
  - apply Rle_max_compat_l. now apply Rle_min_compat_r.
Qed.

Lemma getEffectiveEDV_antitone_witness :
  getEffectiveEDV 120 0.035 <= getEffectiveEDV 120 0.02.
Proof.
  apply (getEffectiveEDV_antitone 120 0.02 0.035); lra.
Defined.

(** ** Display coordinates *)

(** X13: the pressure axis is inverted and clamped: [pY] never leaves
    the plot's vertical extent, sends every pressure at or below 0 to
    the bottom edge and every pressure at or above PMAX to the top edge,
    and is order-reversing; [vX] is strictly increasing with the volume
    range 0..VMAX spanning the plot's width. *)
Theorem display_axes (p1 p2 v1 v2 : R) :
  p1 <= p2 -> v1 < v2 ->
  pY p2 <= pY p1
  /\ PD.t <= pY p1 <= PD.t + GH
  /\ (p2 <= 0 -> pY p2 = H - PD.b)
  /\ (PMAX <= p1 -> pY p1 = PD.t)
  /\ (0 <= p1 -> p1 < p2 -> p2 <= PMAX -> pY p2 < pY p1)
  /\ vX v1 < vX v2
  /\ vX 0 = PD.l /\ vX VMAX = W - PD.r.
Proof.
  intros Hp Hv.
  unfold pY, vX, GH, GW, W, H, PD.t, PD.b, PD.l, PD.r, PMAX, VMAX.
  repeat split; try (intros; rminmax); rminmax.
Qed.

Lemma display_axes_witness :
  pY 240 <= pY 0 /\ pY 0 = H - PD.b /\ pY 240 = PD.t /\ vX 10 < vX 120.
Proof.
  destruct (display_axes 0 240 10 120) as (H1 & _ & _ & _ & _ & H6 & _);
    [lra | lra |].
  destruct (display_axes 240 240 10 120) as (_ & _ & _ & H4 & _);
    [lra | lra |].
  destruct (display_axes 0 0 10 120) as (_ & _ & H3 & _);
    [lra | lra |].
  split; [exact H1 |].
  split; [apply H3; lra |].
  split; [apply H4; unfold PMAX; lra | exact H6].
Defined.

(** ** Loop geometry: corners, joins and bounds *)

Lemma INR_20 : INR 20 = 20.
Proof. simpl. lra. Qed.

Lemma INR_12 : INR 12 = 12.
Proof. simpl. lra. Qed.

Lemma filling_sample_first (st : State) (alpha : R) :
  filling_sample st alpha 0 = (ESV st, Rmin (edpvr (ESV st) alpha) 60).
Proof.
  unfold filling_sample. cbn [INR].
  replace (ESV st + (EDV st - ESV st) * (0 / 20)) with (ESV st) by lra.
  reflexivity.
Qed.

Lemma filling_sample_last (st : State) (alpha : R) :
  filling_sample st alpha 20 = (EDV st, Rmin (edpvr (EDV st) alpha) 60).
Proof.
  unfold filling_sample. rewrite INR_20.
  replace (ESV st + (EDV st - ESV st) * (20 / 20)) with (EDV st) by lra.
  reflexivity.
Qed.

Lemma contraction_sample_first (st : State) :
  contraction_sample st 0 = (EDV st, Rmin (LVEDP st) 60).
Proof. unfold contraction_sample. cbn [INR]. f_equal. lra. Qed.

Lemma contraction_sample_last (st : State) :
  contraction_sample st 12 = (EDV st, ESP st).
Proof. unfold contraction_sample. rewrite INR_12. f_equal. lra. Qed.

Lemma relaxation_sample_first (st : State) :
  relaxation_sample st 0 = (ESV st, ESP st).
Proof. unfold relaxation_sample. cbn [INR]. f_equal. lra. Qed.

Lemma relaxation_sample_last (st : State) :
  relaxation_sample st 12 = (ESV st, Rmin (esvP0 st) 30).
Proof. unfold relaxation_sample. rewrite INR_12. f_equal. lra. Qed.

Lemma ejection_sample_first (st : State) (Ees : R) :
  ejection_sample st Ees 0
  = (EDV st, Rmax (Rmin (ESP st) (espvr (EDV st) Ees + 5)) (ESP st - 15)).
Proof.
  unfold ejection_sample. cbn [INR].
  replace (0 / 20 * PI) with 0 by lra. rewrite sin_0.
  replace (EDV st - (EDV st - ESV st) * (0 / 20)) with (EDV st) by lra.
  replace (ESP st + 8 * 0) with (ESP st) by lra.
  reflexivity.
Qed.

Lemma ejection_sample_last (st : State) (Ees : R) :
  ejection_sample st Ees 20
  = (ESV st, Rmax (Rmin (ESP st) (espvr (ESV st) Ees + 5)) (ESP st - 15)).
Proof.
  unfold ejection_sample. rewrite INR_20.
  replace (20 / 20 * PI) with PI by lra. rewrite sin_PI.
  replace (EDV st - (EDV st - ESV st) * (20 / 20)) with (ESV st) by lra.
  replace (ESP st + 8 * 0) with (ESP st) by lra.
  reflexivity.
Qed.

(** The samples at the ends of the four index ranges of the array. *)
Lemma makeLoop_pts_corners (st : State) (Ees alpha : R) (d : point) :
  let pts := makeLoop_pts st Ees alpha in
  nth 0 pts d = filling_sample st alpha 0
  /\ nth 20 pts d = filling_sample st alpha 20
  /\ nth 21 pts d = contraction_sample st 0
  /\ nth 33 pts d = contraction_sample st 12
  /\ nth 34 pts d = ejection_sample st Ees 0
  /\ nth 54 pts d = ejection_sample st Ees 20
  /\ nth 55 pts d = relaxation_sample st 0
  /\ nth 67 pts d = relaxation_sample st 12.
Proof.
  cbv zeta. rewrite makeLoop_pts_phases.
  split; [reflexivity |]. split; [reflexivity |]. split; [reflexivity |].
  split; [reflexivity |]. split; [reflexivity |]. split; [reflexivity |].
  split; reflexivity.
Qed.

Lemma computeState_SV_nonneg (Ees EDV0 Ea alpha : R) :
  0 < Ees -> 0 < Ea -> V0 <= EDV0 ->
  ESV (computeState Ees EDV0 Ea alpha) <= EDV0.
Proof.
  intros HEes HEa HEDV.
  assert (Hsum : Ees + Ea <> 0) by lra.
  pose proof (computeState_SV_closed Ees EDV0 Ea alpha Hsum) as HSV.
  destruct (computeState_fields Ees EDV0 Ea alpha) as (HD & _ & HS & _).
  cbv zeta in HD, HS. rewrite HS, HD in HSV.
  assert (0 <= Ees * (EDV0 - V0) / (Ees + Ea)).
  { apply Rmult_le_pos; [apply Rmult_le_pos; lra |].
    left. apply Rinv_0_lt_compat. lra. }
  lra.
Qed.

(** X14: for a direct-mode state (Ees, Ea > 0, EDV >= V0) drawn with its
    own Ees and alpha the four phases join: the last sample of each phase
    is the first sample of the next, at the corners (EDV, min(LVEDP, 60)),
    (EDV, ESP) and (ESV, ESP); the path closes on its first sample when
    the diastolic pressure at ESV is at most 30. *)
Theorem makeLoop_direct_joins (Ees EDV0 Ea alpha : R) :
  0 < Ees -> 0 < Ea -> V0 <= EDV0 ->
  let st := computeState Ees EDV0 Ea alpha in
  let pts := makeLoop_pts st Ees alpha in
  let d := (0, 0) in
  nth 20 pts d = nth 21 pts d /\ nth 21 pts d = (EDV st, Rmin (LVEDP st) 60)
  /\ nth 33 pts d = nth 34 pts d /\ nth 34 pts d = (EDV st, ESP st)
  /\ nth 54 pts d = nth 55 pts d /\ nth 55 pts d = (ESV st, ESP st)
  /\ (esvP0 st <= 30 -> nth 67 pts d = nth 0 pts d).
Proof.
  intros HEes HEa HEDV st pts d.
  destruct (makeLoop_pts_corners st Ees alpha d)
    as (H0 & H20 & H21 & H33 & H34 & H54 & H55 & H67).
  fold pts in H0, H20, H21, H33, H34, H54, H55, H67.
  destruct (computeState_fields Ees EDV0 Ea alpha)
    as (HD & HP & _ & _ & HL & HV).
  fold st in HD, HP, HL, HV.
  pose proof (computeState_SV_nonneg Ees EDV0 Ea alpha HEes HEa HEDV) as Hle.
  fold st in Hle. rewrite <- HD in Hle.
  assert (Htop : espvr (ESV st) Ees <= espvr (EDV st) Ees).
  { unfold espvr. apply Rmult_le_compat_l; lra. }
  rewrite H20, H21, H33, H34, H54, H55, H67, H0.
  rewrite filling_sample_last, filling_sample_first, contraction_sample_first,
    contraction_sample_last, ejection_sample_first, ejection_sample_last,
    relaxation_sample_first, relaxation_sample_last.
  rewrite <- HL, <- HV.
  split; [reflexivity |]. split; [reflexivity |].
  split; [f_equal; rewrite <- HP in Htop; rminmax |].
  split; [f_equal; rewrite <- HP in Htop; rminmax |].
  split; [f_equal; rewrite <- HP; rminmax |].
  split; [reflexivity |].
  intros H30. f_equal. rminmax.
Qed.

Lemma makeLoop_direct_joins_witness :
  let st := computeState 2.5 120 2.0 0.02 in
  let pts := makeLoop_pts st 2.5 0.02 in
  let d := (0, 0) in
  nth 20 pts d = nth 21 pts d /\ nth 21 pts d = (EDV st, Rmin (LVEDP st) 60)
  /\ nth 33 pts d = nth 34 pts d /\ nth 34 pts d = (EDV st, ESP st)
  /\ nth 54 pts d = nth 55 pts d /\ nth 55 pts d = (ESV st, ESP st)
  /\ (esvP0 st <= 30 -> nth 67 pts d = nth 0 pts d).
Proof.
  apply (makeLoop_direct_joins 2.5 120 2.0 0.02); unfold V0; lra.
Defined.




(** The printed vertices are the display coordinates, each printed to
    one decimal. *)
Lemma makeLoop_prints_xy (st : State) (Ees alpha : R) :
  makeLoop st Ees alpha
  = map (fun xy => (toFixed1 (fst xy), toFixed1 (snd xy)))
        (makeLoop_xy st Ees alpha).
Proof. unfold makeLoop, makeLoop_xy. rewrite map_map. reflexivity. Qed.





(** X16: for a direct-mode state (Ees, Ea > 0, EDV >= V0) drawn with its
    own Ees, every ejection sample lies on or above the straight line at
    ESP, at most 8 above it, at most 5 above the ESPVR at its volume,
    and its volume is between ESV and EDV. *)
Theorem direct_ejection_arc (Ees EDV0 Ea alpha : R) :
  0 < Ees -> 0 < Ea -> V0 <= EDV0 ->
  let st := computeState Ees EDV0 Ea alpha in
  Forall (fun vp =>
            ESP st <= snd vp <= ESP st + 8
            /\ snd vp <= espvr (fst vp) Ees + 5
            /\ ESV st <= fst vp <= EDV st)
         (phase_c st Ees).
Proof.
  intros HEes HEa HEDV st.
  apply Forall_forall. intros vp Hin.
  apply in_map_iff in Hin. destruct Hin as (i & <- & Hi).
  apply in_seq in Hi.
  destruct (computeState_fields Ees EDV0 Ea alpha) as (HD & HP & _).
  fold st in HD, HP.
  pose proof (computeState_SV_nonneg Ees EDV0 Ea alpha HEes HEa HEDV) as Hle.
  fold st in Hle. rewrite <- HD in Hle.
  assert (Hf : 0 <= INR i / INR 20 <= 1) by (apply INR_frac_range; lia).
  rewrite INR_20 in Hf.
  pose proof (ejection_sample_bow st Ees i) as Hbow.
  assert (Hsin : 0 <= sin (INR i / 20 * PI)).
  { pose proof PI_RGT_0.
    apply sin_ge_0; [apply Rmult_le_pos; lra |].
    replace PI with (1 * PI) at 2 by lra.
    apply Rmult_le_compat_r; lra. }
  unfold ejection_sample in *. cbn [fst snd] in *.
  set (v := EDV st - (EDV st - ESV st) * (INR i / 20)) in *.
  assert (Hv : ESV st <= v <= EDV st) by (subst v; nra).
  assert (Hesp : ESP st <= espvr v Ees).
  { rewrite HP. unfold espvr. apply Rmult_le_compat_l; lra. }
  set (s := sin _) in *.
  repeat split; try lra; rminmax.
Qed.

Lemma direct_ejection_arc_witness :
  let st := computeState 1.0 180 2.2 0.02 in
  Forall (fun vp =>
            ESP st <= snd vp <= ESP st + 8
            /\ snd vp <= espvr (fst vp) 1.0 + 5
            /\ ESV st <= fst vp <= EDV st)
         (phase_c st 1.0).
Proof.
  apply (direct_ejection_arc 1.0 180 2.2 0.02); unfold V0; lra.
Defined.




(** X18: the filling phase climbs the EDPVR.  For alpha > 0 and
    ESV <= EDV, later filling samples have no smaller volume and no
    smaller pressure; every filling pressure is at most 60 and equals
    the EDPVR pressure at its volume whenever that does not exceed 60. *)
Theorem filling_climbs_EDPVR (st : State) (alpha : R) (i j : nat) :
  0 < alpha -> ESV st <= EDV st -> (i <= j)%nat ->
  let a := filling_sample st alpha i in
  let b := filling_sample st alpha j in
  fst a <= fst b /\ snd a <= snd b /\ snd a <= 60
  /\ (edpvr (fst a) alpha <= 60 -> snd a = edpvr (fst a) alpha).
Proof.
  intros Ha Hle Hij a b.
  assert (HINR : INR i <= INR j) by (apply le_INR; exact Hij).
  assert (Hv : fst a <= fst b).
  { subst a b. unfold filling_sample. cbn [fst]. nra. }
  split; [exact Hv |].
  pose proof (edpvr_monotone alpha (fst a) (fst b) Ha Hv) as Hp.
  subst a b. unfold filling_sample in *. cbn [fst snd] in *.
  split; [apply Rle_min_compat_r; exact Hp |].
  split; [apply Rmin_r |].
  intros Hcap. apply Rmin_left. exact Hcap.
Qed.

Lemma filling_climbs_EDPVR_witness :
  let st := computeState 2.5 120 2.0 0.02 in
  let a := filling_sample st 0.02 3 in
  let b := filling_sample st 0.02 17 in
  fst a <= fst b /\ snd a <= snd b /\ snd a <= 60.
Proof.
  destruct (filling_climbs_EDPVR (computeState 2.5 120 2.0 0.02) 0.02 3 17)
    as (H1 & H2 & H3 & _).
  - lra.
  - cbn -[exp]. unfold V0. lra.
  - lia.
  - split; [exact H1 |]. split; [exact H2 | exact H3].
Defined.

(** ** Boundary-curve sampling *)

Lemma curve_keep_dec (type : CurveType) (param v : R) :
  {curve_keep type param v} + {~ curve_keep type param v}.
Proof.
  unfold curve_keep.
  destruct (Rle_dec v 210); [| right; tauto].
  destruct (Rle_dec (curve_p type v param) (curve_cap type));
    [left | right]; tauto.
Qed.

Lemma makeCurve_loop_keep (fuel : nat) (type : CurveType) (param v : R)
    (pts : list point) :
  curve_keep type param v ->
  makeCurve_loop (S fuel) type param v pts
  = makeCurve_loop fuel type param (v + 2)
      (push pts (v, curve_p type v param)).
Proof.
  intros [Hv Hp]. cbn [makeCurve_loop].
  destruct (Rle_dec v 210); [| contradiction].
  destruct type; unfold curve_cap, PMAX in Hp; cbn [is_edpvr andb];
    unfold PMAX.
  - destruct (Rgt_dec _ _); [lra | reflexivity].
  - destruct (Rgt_dec _ _); [lra |].
    destruct (Rgt_dec _ 65); [lra | reflexivity].
Qed.

Lemma makeCurve_loop_stop (fuel : nat) (type : CurveType) (param v : R)
    (pts : list point) :
  ~ curve_keep type param v ->
  makeCurve_loop fuel type param v pts = pts.
Proof.
  intros Hn. destruct fuel as [| fuel]; [reflexivity |].
  cbn [makeCurve_loop].
  destruct (Rle_dec v 210) as [Hv |]; [| reflexivity].
  destruct (Rgt_dec _ _) as [| Hp]; [reflexivity |].
  destruct type; cbn [is_edpvr andb].
  - exfalso. apply Hn. split; [exact Hv | unfold curve_cap; lra].
  - destruct (Rgt_dec _ 65) as [| Hq]; [reflexivity |].
    exfalso. apply Hn. split; [exact Hv | unfold curve_cap; lra].
Qed.

(** The loop only ever appends to the array it is given. *)
Lemma makeCurve_loop_app (fuel : nat) (type : CurveType) (param : R) :
  forall v pts,
    makeCurve_loop fuel type param v pts
    = pts ++ makeCurve_loop fuel type param v [].
Proof.
  induction fuel as [| fuel IH]; intros v pts.
  - cbn. now rewrite app_nil_r.
  - destruct (curve_keep_dec type param v) as [Hk | Hn].
    + rewrite !makeCurve_loop_keep by exact Hk.
      rewrite IH. rewrite (IH _ (push [] _)).
      unfold push. cbn [app]. now rewrite <- app_assoc.
    + rewrite !makeCurve_loop_stop by exact Hn. now rewrite app_nil_r.
Qed.

(** Past volume 210 the loop has stopped by itself: more fuel changes
    nothing. *)
Lemma makeCurve_loop_fuel (type : CurveType) (param : R) (k fuel : nat) :
  forall v pts,
    210 < v + 2 * INR fuel ->
    makeCurve_loop (fuel + k) type param v pts
    = makeCurve_loop fuel type param v pts.
Proof.
  induction fuel as [| fuel IH]; intros v pts Hv.
  - cbn [INR] in Hv. cbn [Nat.add makeCurve_loop].
    apply makeCurve_loop_stop. unfold curve_keep. lra.
  - destruct (curve_keep_dec type param v) as [Hk | Hn].
    + cbn [Nat.add]. rewrite !makeCurve_loop_keep by exact Hk.
      apply IH. rewrite S_INR in Hv. lra.
    + now rewrite !makeCurve_loop_stop by exact Hn.
Qed.

Lemma makeCurve_loop_inv (P : point -> Prop) (type : CurveType) (param : R)
    (j0 : nat) :
  (forall j, (j0 <= j)%nat -> curve_keep type param (curve_grid type j) ->
             P (curve_grid type j, curve_p type (curve_grid type j) param)) ->
  forall fuel j pts,
    (j0 <= j)%nat -> Forall P pts ->
    Forall P (makeCurve_loop fuel type param (curve_grid type j) pts).
Proof.
  intros HP. induction fuel as [| fuel IH]; intros j pts Hj Hpts.
  - exact Hpts.
  - destruct (curve_keep_dec type param (curve_grid type j)) as [Hk | Hn].
    + rewrite makeCurve_loop_keep by exact Hk.
      replace (curve_grid type j + 2) with (curve_grid type (S j))
        by (unfold curve_grid; rewrite S_INR; lra).
      apply IH; [lia |].
      unfold push. apply Forall_app. split; [exact Hpts |].
      constructor; [| constructor]. now apply HP.
    + now rewrite makeCurve_loop_stop by exact Hn.
Qed.

Lemma curve_p_start (type : CurveType) (param : R) :
  curve_p type (curve_start type) param = 0.
Proof.
  destruct type; cbn.
  - unfold espvr. lra.
  - apply edpvr_at_0.
Qed.

Lemma curve_grid_0 (type : CurveType) : curve_grid type 0 = curve_start type.
Proof. unfold curve_grid. cbn [INR]. lra. Qed.

Lemma makeCurve_pts_grid (type : CurveType) (param : R) :
  makeCurve_pts type param
  = makeCurve_loop 128 type param (curve_grid type 0) [].
Proof. now rewrite curve_grid_0. Qed.

(** X19: every sample of a boundary curve sits on the 2-unit volume
    grid that starts at V0 (ESPVR) or 0 (EDPVR), at a volume between
    that start and 210, on the curve itself, and at a pressure no higher
    than PMAX + 10 (ESPVR) or 65 (EDPVR); there are at most 106. *)
Theorem makeCurve_samples (type : CurveType) (param : R) :
  Forall (fun vp =>
            (exists j, (j <= 105)%nat /\ fst vp = curve_grid type j)
            /\ curve_start type <= fst vp <= 210
            /\ snd vp = curve_p type (fst vp) param
            /\ snd vp <= curve_cap type)
         (makeCurve_pts type param).
Proof.
  rewrite makeCurve_pts_grid.
  apply (makeCurve_loop_inv _ type param 0); [| lia | constructor].
  intros j _ [Hv Hp]. cbn [fst snd].
  assert (Hpos : 0 <= INR j) by apply pos_INR.
  assert (Hs : 0 <= curve_start type) by (destruct type; cbn; unfold V0; lra).
  split.
  - exists j. split; [| reflexivity].
    apply INR_le. unfold curve_grid in Hv.
    replace (INR 105) with 105 by (simpl; lra). lra.
  - unfold curve_grid in *. repeat split; lra.
Qed.

(** X20: a boundary curve is never empty: whatever the parameter, its
    first sample is the point of the volume axis where the curve starts,
    (V0, 0) for the ESPVR and (0, 0) for the EDPVR; and the sampling
    loop stops by its own bound, so any larger budget of rounds returns
    the same samples. *)
Theorem makeCurve_starts_on_axis (type : CurveType) (param : R) (k : nat) :
  (exists rest, makeCurve_pts type param = (curve_start type, 0) :: rest)
  /\ makeCurve_loop (128 + k) type param (curve_start type) []
     = makeCurve_pts type param.
Proof.
  assert (Hs : 0 <= curve_start type) by (destruct type; cbn; unfold V0; lra).
  split.
  - unfold makeCurve_pts.
    assert (Hk : curve_keep type param (curve_start type)).
    { split; [destruct type; cbn; unfold V0; lra |].
      rewrite curve_p_start. destruct type; cbn; unfold PMAX; lra. }
    change 128%nat with (S 127).
    rewrite makeCurve_loop_keep by exact Hk.
    rewrite makeCurve_loop_app, curve_p_start.
    cbn [push app]. eexists. reflexivity.
  - apply makeCurve_loop_fuel.
    replace (INR 128) with 128 by (simpl; lra). lra.
Qed.

Lemma curve_keep_down (type : CurveType) (param : R) :
  0 <= param ->
  forall j i, (i <= j)%nat ->
    curve_keep type param (curve_grid type j) ->
    curve_keep type param (curve_grid type i).
Proof.
  intros Hpar j i Hij [Hv Hp].
  assert (Hle : curve_grid type i <= curve_grid type j).
  { unfold curve_grid. apply le_INR in Hij. lra. }
  split; [lra |].
  apply Rle_trans with (curve_p type (curve_grid type j) param); [| exact Hp].
  destruct type; cbn [curve_p].
  - unfold espvr. apply Rmult_le_compat_l; lra.
  - destruct Hpar as [Hpos | <-].
    + now apply edpvr_monotone.
    + unfold edpvr. rewrite !Rmult_0_l. lra.
Qed.

Lemma makeCurve_loop_mem (type : CurveType) (param : R) :
  0 <= param ->
  forall fuel j0 j,
    (j0 <= j < j0 + fuel)%nat ->
    (In (curve_grid type j, curve_p type (curve_grid type j) param)
        (makeCurve_loop fuel type param (curve_grid type j0) [])
     <-> curve_keep type param (curve_grid type j)).
Proof.
  intros Hpar. induction fuel as [| fuel IH]; intros j0 j Hj; [lia |].
  destruct (curve_keep_dec type param (curve_grid type j0)) as [Hk | Hn].
  - rewrite makeCurve_loop_keep by exact Hk.
    rewrite makeCurve_loop_app. cbn [push app].
    replace (curve_grid type j0 + 2) with (curve_grid type (S j0))
      by (unfold curve_grid; rewrite S_INR; lra).
    destruct (Nat.eq_dec j j0) as [-> | Hne].
    + split; [intros _; exact Hk | intros _; left; reflexivity].
    + rewrite <- (IH (S j0) j) by lia.
      split; [| intros Hin; right; exact Hin].
      intros [Heq | Hin]; [exfalso | exact Hin].
      injection Heq as Hv _. unfold curve_grid in Hv.
      assert (Hj0 : INR j0 = INR j) by lra.
      apply INR_eq in Hj0. lia.
  - rewrite makeCurve_loop_stop by exact Hn.
    split; [intros [] |].
    intros Hk. exfalso. apply Hn.
    apply (curve_keep_down type param Hpar j j0); [lia | exact Hk].
Qed.

(** X21: for a non-negative parameter (Ees or alpha) the break is a
    plain cut-off: a grid volume is sampled exactly when it is at most
    210 and the curve's pressure there is at most the cap, PMAX + 10 for
    the ESPVR and 65 for the EDPVR. *)
Theorem makeCurve_cutoff (type : CurveType) (param : R) (j : nat) :
  0 <= param ->
  (In (curve_grid type j, curve_p type (curve_grid type j) param)
      (makeCurve_pts type param)
   <-> curve_grid type j <= 210
       /\ curve_p type (curve_grid type j) param <= curve_cap type).
Proof.
  intros Hpar. rewrite makeCurve_pts_grid.
  destruct (Nat.lt_ge_cases j 128) as [Hlt | Hge].
  - apply (makeCurve_loop_mem type param Hpar 128 0 j). lia.
  - assert (Hs : 0 <= curve_start type)
      by (destruct type; cbn; unfold V0; lra).
    assert (Hbig : 210 < curve_grid type j).
    { unfold curve_grid. apply le_INR in Hge.
      replace (INR 128) with 128 in Hge by (simpl; lra). lra. }
    split; [| lra].
    intros Hin. exfalso.
    pose proof (makeCurve_loop_inv
                  (fun vp => fst vp <= 210) type param 0) as Hinv.
    assert (Hall : Forall (fun vp => fst vp <= 210)
                     (makeCurve_loop 128 type param (curve_grid type 0) [])).
    { apply Hinv; [| lia | constructor].
      intros i _ [Hv _]. exact Hv. }
    rewrite Forall_forall in Hall. specialize (Hall _ Hin).
    cbn [fst] in Hall. lra.
Qed.

Lemma makeCurve_cutoff_witness :
  In (curve_grid curve_espvr 50,
      curve_p curve_espvr (curve_grid curve_espvr 50) 2.5)
     (makeCurve_pts curve_espvr 2.5)
  /\ ~ In (curve_grid curve_espvr 51,
           curve_p curve_espvr (curve_grid curve_espvr 51) 2.5)
          (makeCurve_pts curve_espvr 2.5).
Proof.
  split.
  - apply (makeCurve_cutoff curve_espvr 2.5 50); [lra |].
    unfold curve_grid, curve_p, curve_cap, curve_start, espvr, V0, PMAX.
    replace (INR 50) with 50 by (simpl; lra). lra.
  - intros Hin.
    apply (makeCurve_cutoff curve_espvr 2.5 51) in Hin; [| lra].
    revert Hin.
    unfold curve_grid, curve_p, curve_cap, curve_start, espvr, V0, PMAX.
    replace (INR 51) with 51 by (simpl; lra). lra.
Defined.

(** ** Component state *)

Lemma sl_get_set_key_same (k : SliderKey) (v : R) (s : Sl.t) :
  sl_get k (set_key k v s) = v.
Proof. destruct k; reflexivity. Qed.

Lemma sl_get_set_key_other (k k' : SliderKey) (v : R) (s : Sl.t) :
  k' <> k -> sl_get k' (set_key k v s) = sl_get k' s.
Proof. intros Hne. destruct k, k'; try reflexivity; congruence. Qed.

(** X22: a slider move is seen by the sliders themselves.  After
    [slide k v] the moved slider shows v and every other slider shows
    what it showed before, in scenario mode (where the scenario's values
    are snapshotted) as in manual mode. *)
Theorem slide_shows (ui : UI) (k k' : SliderKey) (v : R) :
  slider_val (slide ui k v) k = v
  /\ (k' <> k -> slider_val (slide ui k v) k' = slider_val ui k').
Proof.
  unfold slider_val, slide. cbn [mode sl].
  split.
  - destruct (mode ui); apply sl_get_set_key_same.
  - intros Hne.
    destruct (mode ui); rewrite sl_get_set_key_other by exact Hne;
      destruct k'; reflexivity.
Qed.

Lemma slide_shows_witness :
  slider_val (slide (pickSc initialUI hfref) kEes 3) kEes = 3
  /\ slider_val (slide (pickSc initialUI hfref) kEes 3) kEDV = 180.
Proof.
  destruct (slide_shows (pickSc initialUI hfref) kEes kEDV 3) as [H1 H2].
  split; [exact H1 |].
  rewrite H2 by discriminate. reflexivity.
Defined.

Lemma nSteps_all (k : ScKey) : Scenario.nSteps (SC k) = 4%nat.
Proof. destruct k; reflexivity. Qed.

Lemma step_ok_handle (ui : UI) (e : Event) :
  step_ok ui -> event_ok ui e = true -> step_ok (handle ui e).
Proof.
  unfold step_ok. intros Hs He.
  destruct e; cbn [handle pickSc slide stepPrev stepNext stepTo step scKey] in *.
  - rewrite nSteps_all. lia.
  - exact Hs.
  - rewrite nSteps_all in *. lia.
  - rewrite nSteps_all in *. lia.
  - cbn [event_ok] in He. now apply Nat.ltb_lt in He.
Qed.

(** X23: the teaching-step index never runs off the scenario's step
    list.  Starting from a state whose step index is in range, any
    sequence of scenario picks, slider moves, Prev/Next clicks and clicks
    on existing progress bars leaves it in range. *)
Theorem step_stays_in_range (evs : list Event) (ui : UI) :
  step_ok ui -> trace_ok ui evs = true -> step_ok (run ui evs).
Proof.
  revert ui. induction evs as [| e evs IH]; intros ui Hs Hok.
  - exact Hs.
  - cbn [trace_ok] in Hok. apply andb_true_iff in Hok.
    destruct Hok as [He Hrest].
    cbn [run fold_left]. apply IH; [| exact Hrest].
    now apply step_ok_handle.
Qed.

Lemma step_stays_in_range_witness :
  step_ok (run initialUI
             [StepNext; StepNext; StepNext; StepNext; StepNext;
              PickSc mr; StepTo 3; StepNext; Slide kEa 3; StepPrev]).
Proof.
  apply (step_stays_in_range
           [StepNext; StepNext; StepNext; StepNext; StepNext;
            PickSc mr; StepTo 3; StepNext; Slide kEa 3; StepPrev] initialUI).
  - unfold step_ok. cbn. lia.
  - reflexivity.
Defined.

Lemma same_view_handle (u1 u2 : UI) (e : Event) :
  same_view u1 u2 -> same_view (handle u1 e) (handle u2 e).
Proof.
  intros (Hk & Hs & Hm & Hsl).
  destruct e; cbn [handle].
  - repeat split; intros; discriminate.
  - unfold slide. rewrite <- Hk, <- Hs, <- Hm.
    destruct (mode u1) eqn:Hmode.
    + repeat split.
    + rewrite <- (Hsl eq_refl). repeat split.
  - unfold stepPrev. rewrite <- Hk, <- Hs, <- Hm.
    repeat split. exact Hsl.
  - unfold stepNext. rewrite <- Hk, <- Hs, <- Hm.
    repeat split. exact Hsl.
  - unfold stepTo. rewrite <- Hk, <- Hm.
    repeat split. exact Hsl.
Qed.

Lemma same_view_run (evs : list Event) (u1 u2 : UI) :
  same_view u1 u2 -> same_view (run u1 evs) (run u2 evs).
Proof.
  revert u1 u2. induction evs as [| e evs IH]; intros u1 u2 Hv.
  - exact Hv.
  - cbn [run fold_left]. apply IH. now apply same_view_handle.
Qed.

Lemma same_view_pv (u1 u2 : UI) :
  same_view u1 u2 ->
  pv u1 = pv u2 /\ hl u1 = hl u2
  /\ (forall key, slider_val u1 key = slider_val u2 key)
  /\ loop u1 = loop u2.
Proof.
  intros (Hk & _ & Hm & Hsl).
  assert (Hpv : pv u1 = pv u2).
  { unfold pv. rewrite <- Hk, <- Hm.
    destruct (mode u1); [reflexivity |]. now rewrite <- (Hsl eq_refl). }
  split; [exact Hpv |].
  split.
  - unfold hl. rewrite <- Hpv, <- Hk, <- Hm. reflexivity.
  - split.
    + intros key. unfold slider_val. rewrite <- Hk, <- Hm.
      destruct (mode u1); [reflexivity |]. now rewrite <- (Hsl eq_refl).
    + unfold loop, pm_Ees, pm_alpha. rewrite <- Hpv, <- Hk, <- Hm.
      destruct (mode u1); [reflexivity |]. now rewrite <- (Hsl eq_refl).
Qed.

(** X24: picking a scenario wipes out every earlier slider move.  Two
    sessions that pick the same scenario, whatever happened in them
    before, compute the same state, loop, highlight and slider positions
    after any common sequence of further events: the stale slider values
    kept by [pickSc] are never read again. *)
Theorem pickSc_forgets_sliders (u1 u2 : UI) (k : ScKey) (evs : list Event) :
  let a := run (pickSc u1 k) evs in
  let b := run (pickSc u2 k) evs in
  pv a = pv b /\ hl a = hl b
  /\ (forall key, slider_val a key = slider_val b key)
  /\ loop a = loop b.
Proof.
  cbv zeta. apply same_view_pv. apply same_view_run.
  repeat split. intros Hm. discriminate.
Qed.

(** X25: the highlight ring is drawn only in scenario mode and never for
    the normal scenario, and when it is drawn it is centred on one of
    the loop's corner dots. *)
Theorem hl_on_corner_dot (ui : UI) (h : HL.t) :
  hl ui = Some h ->
  mode ui = scenario /\ scKey ui <> normal
  /\ In (HL.cx h, HL.cy h) (corner_dots (pv ui)).
Proof.
  unfold hl. intros Hh.
  destruct (mode ui) eqn:Hm; [| discriminate].
  split; [reflexivity |].
  split.
  - intros Hn. rewrite Hn in Hh. discriminate.
  - destruct (highlight (scKey ui)) as [[| |] |]; cbn [getHL] in Hh;
      [| | | discriminate]; injection Hh as <-; cbn [HL.cx HL.cy corner_dots In];
      tauto.
Qed.

Lemma hl_on_corner_dot_witness :
  mode (pickSc initialUI as_) = scenario /\ scKey (pickSc initialUI as_) <> normal
  /\ In (vX (EDV (pv (pickSc initialUI as_))), pY (ESP (pv (pickSc initialUI as_))))
        (corner_dots (pv (pickSc initialUI as_))).
Proof.
  apply (hl_on_corner_dot (pickSc initialUI as_)
           (HL.mk (vX (EDV (pv (pickSc initialUI as_))))
                  (pY (ESP (pv (pickSc initialUI as_)))) "Peak pressure")).
  reflexivity.
Defined.

(** X26: for Ees > 0 the ESPVR label is anchored where the ESPVR reaches
    the pressure min(90, 45 * Ees); it is drawn exactly when Ees > 2/9,
    hence over the whole slider range 0.5..5. *)
Theorem espvr_label_drawn (Ees : R) :
  0 < Ees ->
  espvr (V0 + Rmin (90 / Ees) 45) Ees = Rmin 90 (45 * Ees)
  /\ (2 / 9 < Ees ->
      espvr_label Ees
      = Some (vX (V0 + Rmin (90 / Ees) 45) + 3, pY (Rmin 90 (45 * Ees)) - 5))
  /\ (Ees <= 2 / 9 -> espvr_label Ees = None).
Proof.
  intros HEes.
  assert (Hq : Ees * (90 / Ees) = 90) by (field; lra).
  assert (Hlp : espvr (V0 + Rmin (90 / Ees) 45) Ees = Rmin 90 (45 * Ees)).
  { unfold espvr.
    replace (V0 + Rmin (90 / Ees) 45 - V0) with (Rmin (90 / Ees) 45) by lra.
    unfold Rmin at 1. destruct (Rle_dec (90 / Ees) 45) as [Hle | Hgt].
    - rewrite Hq. rewrite Rmin_left; [reflexivity |].
      assert (Ees * (90 / Ees) <= Ees * 45)
        by (apply Rmult_le_compat_l; lra).
      lra.
    - rewrite Rmin_right; [lra |].
      assert (Ees * 45 < Ees * (90 / Ees))
        by (apply Rmult_lt_compat_l; lra).
      lra. }
  split; [exact Hlp |].
  unfold espvr_label. cbv zeta. rewrite Hlp. unfold PMAX.
  split; intros Hr.
  - destruct (Rgt_dec _ _) as [_ | Hn]; [| exfalso; apply Hn; rminmax].
    destruct (Rlt_dec _ _) as [_ | Hn]; [reflexivity |].
    exfalso; apply Hn; rminmax.
  - destruct (Rgt_dec _ _) as [Hg |]; [| reflexivity].
    exfalso. revert Hg. rminmax.
Qed.

Lemma espvr_label_drawn_witness :
  espvr_label 0.5
  = Some (vX (V0 + Rmin (90 / 0.5) 45) + 3, pY (Rmin 90 (45 * 0.5)) - 5).
Proof.
  apply (espvr_label_drawn 0.5); lra.
Defined.

(** ** Boundary curves and their inverses *)

(** X27: the EDPVR is 0 at volume 0, strictly increasing in volume for
    alpha > 0, and the logarithmic formula the solvers use to invert it
    is its two-sided inverse: it recovers the volume from the pressure
    and, for any pressure above -A_ED, the pressure from the volume. *)
Theorem edpvr_log_inverse (alpha V1 V2 P : R) :
  0 < alpha -> V1 < V2 -> - A_ED < P ->
  edpvr 0 alpha = 0
  /\ edpvr V1 alpha < edpvr V2 alpha
  /\ ln (edpvr V1 alpha / A_ED + 1) / alpha = V1
  /\ edpvr (ln (P / A_ED + 1) / alpha) alpha = P.
Proof.
  intros Ha HV HP.
  split; [apply edpvr_at_0 |].
  split; [now apply edpvr_increasing |].
  split.
  - unfold edpvr.
    replace (A_ED * (exp (alpha * V1) - 1) / A_ED + 1)
      with (exp (alpha * V1)) by (unfold A_ED; lra).
    rewrite ln_exp. field. lra.
  - apply edpvr_inverse; [lra |].
    unfold A_ED in *. lra.
Qed.

Lemma edpvr_log_inverse_witness :
  edpvr 0 0.02 = 0
  /\ edpvr 60 0.02 < edpvr 120 0.02
  /\ ln (edpvr 60 0.02 / A_ED + 1) / 0.02 = 60
  /\ edpvr (ln (5 / A_ED + 1) / 0.02) 0.02 = 5.
Proof.
  apply (edpvr_log_inverse 0.02 60 120 5); unfold A_ED; lra.
Defined.

(** X28: the ESPVR is 0 at V0, strictly increasing in volume for
    Ees > 0, and P / Ees + V0, the formula the pinned solver uses to
    invert it, is its two-sided inverse. *)
Theorem espvr_inverse (Ees V1 V2 P : R) :
  0 < Ees -> V1 < V2 ->
  espvr V0 Ees = 0
  /\ espvr V1 Ees < espvr V2 Ees
  /\ espvr V1 Ees / Ees + V0 = V1
  /\ espvr (P / Ees + V0) Ees = P.
Proof.
  intros HEes HV. unfold espvr.
  split; [lra |].
  split; [apply Rmult_lt_compat_l; lra |].
  split; field; lra.
Qed.

Lemma espvr_inverse_witness :
  espvr V0 2.5 = 0
  /\ espvr 60 2.5 < espvr 120 2.5
  /\ espvr 60 2.5 / 2.5 + V0 = 60
  /\ espvr (120 / 2.5 + V0) 2.5 = 120.
Proof.
  apply (espvr_inverse 2.5 60 120 120); lra.
Defined.

(** X29: a pinned state sits on the ESPVR exactly while the ESV cap is
    idle.  For Ees > 0: if refESP / Ees + V0 <= EDV - 1 the returned ESP
    is the ESPVR pressure at ESV; otherwise ESV is EDV - 1 and the
    returned ESP lies strictly above the ESPVR at that volume. *)
Theorem computePinned_on_ESPVR (Ees sliderEDV alpha refESP refLVEDP : R) :
  0 < Ees ->
  let st := computePinned Ees sliderEDV alpha refESP refLVEDP in
  (refESP / Ees + V0 <= EDV st - 1 -> espvr (ESV st) Ees = ESP st)
  /\ (EDV st - 1 < refESP / Ees + V0 ->
      ESV st = EDV st - 1 /\ espvr (ESV st) Ees < ESP st).
Proof.
  intros HEes st.
  assert (HV : ESV st = Rmin (refESP / Ees + V0) (EDV st - 1)) by reflexivity.
  assert (HP : ESP st = refESP) by reflexivity.
  assert (Hq : Ees * (refESP / Ees) = refESP) by (field; lra).
  split.
  - intros Hfree. rewrite HV, HP, Rmin_left by exact Hfree.
    unfold espvr. rewrite <- Hq at 2. f_equal. lra.
  - intros Hcap.
    assert (HE : ESV st = EDV st - 1) by (rewrite HV; apply Rmin_right; lra).
    split; [exact HE |].
    rewrite HE, HP. unfold espvr.
    assert (Ees * (EDV st - 1 - V0) < Ees * (refESP / Ees))
      by (apply Rmult_lt_compat_l; lra).
    lra.
Qed.

Lemma computePinned_on_ESPVR_witness :
  let st := computePinned 0.5 120 0.02 (ESP normSt) (LVEDP normSt) in
  ESV st = EDV st - 1 /\ espvr (ESV st) 0.5 < ESP st.
Proof.
  apply (computePinned_on_ESPVR 0.5 120 0.02 (ESP normSt) (LVEDP normSt));
    [lra |].
  cbn -[exp ln normSt]. rewrite normSt_cap, normSt_ESP. unfold V0. rminmax.
Defined.

(** ** Pinned mode over JavaScript numbers *)





















